(** * go-hitbtc: the websocket notification router (websocket.go)

    A shallow embedding of [responseChannels], [WSClient] and their
    methods.  Go channels are references, so the embedding keeps a table
    of channel states ([chans]) next to the client and the feed maps hold
    indices of that table.  Every method is a computation in a small
    state monad whose outcomes are: normal return, run-time panic, or a
    goroutine blocked forever.  The effects a method performs (transport
    calls, [make], [close], channel sends) are appended to a trace. *)

From Stdlib Require Import ZArith String List.
From stdpp Require Import gmap strings list fin_maps.

Local Open Scope string_scope.
Local Open Scope list_scope.

(** ** Errors (the [error] interface, juju/errors) *)

Inductive error : Type :=
| ErrNew (msg : string)                        (* errors.New(msg) *)
| ErrAnnotate (cause : error) (msg : string)   (* errors.Annotate(cause, msg) *)
| ErrForeign (msg : string).                   (* raised by jsonrpc2 or encoding/json *)

(** [errors.Cause]: the innermost error of a chain of annotations. *)
Fixpoint Cause (e : error) : error :=
  match e with
  | ErrAnnotate c _ => Cause c
  | _ => e
  end.

(** [err.Error()]: annotations are prefixed, separated by a colon. *)
Fixpoint Error (e : error) : string :=
  match e with
  | ErrNew m => m
  | ErrForeign m => m
  | ErrAnnotate c m => (m ++ ": " ++ Error c)%string
  end.

(** ** Wire types *)

(** [json.RawMessage]: the undecoded bytes of a payload. *)
Abbreviation RawMessage := string (only parsing).

Record WSSubscriptionRequest := { sub_Symbol : string }.

Record WSCandlesSubscriptionRequest :=
  { csub_Symbol : string; csub_Period : string }.

Definition Interval30Minutes : string := "M30".
Definition Interval1Hour : string := "H1".

Record WSNotificationTickerResponse := {
  tk_Ask : string; tk_Bid : string; tk_Last : string; tk_Open : string;
  tk_Low : string; tk_High : string; tk_Volume : string;
  tk_VolumeQuote : string; tk_Timestamp : string; tk_Symbol : string }.

Record WSTrades := {
  tr_ID : Z; tr_Price : string; tr_Quantity : string; tr_Side : string;
  tr_Timestamp : string }.

Record WSNotificationTradesSnapshot :=
  { ts_Data : list WSTrades; ts_Symbol : string }.

Record WSNotificationTradesUpdate :=
  { tu_Data : WSTrades; tu_Symbol : string }.

Record WSSubtypeTrade := { st_Price : string; st_Size : string }.

Record WSNotificationOrderbookSnapshot := {
  os_Ask : list WSSubtypeTrade; os_Bid : list WSSubtypeTrade;
  os_Symbol : string; os_Sequence : Z }.

Record WSNotificationOrderbookUpdate := {
  ou_Ask : list WSSubtypeTrade; ou_Bid : list WSSubtypeTrade;
  ou_Symbol : string; ou_Sequence : Z }.

(** [time.Time] is kept as the text of its JSON encoding. *)
Record WSCandles := {
  cd_Timestamp : string; cd_Open : string; cd_Close : string;
  cd_Min : string; cd_Max : string; cd_Volume : string;
  cd_VolumeQuote : string }.

Record WSNotificationCandlesSnapshot :=
  { cs_Data : list WSCandles; cs_Symbol : string; cs_Period : string }.

Record WSNotificationCandlesUpdate :=
  { cu_Data : WSCandles; cu_Symbol : string; cu_Period : string }.

(** [jsonrpc2.Request], as far as [Handle] reads it.  [Params] is a
    pointer and may be nil. *)
Record Request := { Method : string; Params : option RawMessage }.

(** The [params] argument of [conn.Call]. *)
Inductive params : Type :=
| PSub (r : WSSubscriptionRequest)
| PCandles (r : WSCandlesSubscriptionRequest).

(** What [conn.Call(ctx, op, request, &success)] hands back: an error, or
    nil with the boolean decoded into [success]. *)
Inductive call_result : Type :=
| CallErr (e : error)
| CallOk (success : bool).

(** ** Channels *)

(** A channel value is an index (a [nat]) into the table of channels; the
    nil channel is [None] wherever a channel may be nil. *)

(** All channels of this file are unbuffered, so a channel is described
    by whether it was closed. *)
Inductive chan_state : Type := Open | Closed.

Global Instance chan_state_eq_dec : EqDecision chan_state.
Proof. solve_decision. Defined.

(** What travels on the channels. *)
Inductive value : Type :=
| VTicker (m : WSNotificationTickerResponse)
| VOrderbookSnapshot (m : WSNotificationOrderbookSnapshot)
| VOrderbookUpdate (m : WSNotificationOrderbookUpdate)
| VTradesSnapshot (m : WSNotificationTradesSnapshot)
| VTradesUpdate (m : WSNotificationTradesUpdate)
| VCandlesSnapshot (m : WSNotificationCandlesSnapshot)
| VCandlesUpdate (m : WSNotificationCandlesUpdate)
| VError (e : error).

(** ** The feed maps *)

Record notificationChannels := {
  n_TickerFeed : gmap string nat;
  n_OrderbookFeed : gmap string nat;
  n_TradesFeed : gmap string nat;
  n_CandlesFeed : gmap string nat }.

Record responseChannels := {
  notifications : notificationChannels;
  OrderbookFeed : gmap string nat;
  TradesFeed : gmap string nat;
  CandlesFeed : gmap string nat;
  ErrorFeed : nat }.

(** The seven maps, named so that the code repeated per map in the source
    is written once. *)
Inductive feed : Type :=
| FTicker          (* notifications.TickerFeed *)
| FOrderbookUpd    (* notifications.OrderbookFeed *)
| FTradesUpd       (* notifications.TradesFeed *)
| FCandlesUpd      (* notifications.CandlesFeed *)
| FOrderbookSnap   (* OrderbookFeed *)
| FTradesSnap      (* TradesFeed *)
| FCandlesSnap.    (* CandlesFeed *)

Global Instance feed_eq_dec : EqDecision feed.
Proof. solve_decision. Defined.

Definition feed_get (f : feed) (h : responseChannels) : gmap string nat :=
  match f with
  | FTicker => n_TickerFeed (notifications h)
  | FOrderbookUpd => n_OrderbookFeed (notifications h)
  | FTradesUpd => n_TradesFeed (notifications h)
  | FCandlesUpd => n_CandlesFeed (notifications h)
  | FOrderbookSnap => OrderbookFeed h
  | FTradesSnap => TradesFeed h
  | FCandlesSnap => CandlesFeed h
  end.

Definition set_notifications (n : notificationChannels) (h : responseChannels)
  : responseChannels :=
  {| notifications := n; OrderbookFeed := OrderbookFeed h;
     TradesFeed := TradesFeed h; CandlesFeed := CandlesFeed h;
     ErrorFeed := ErrorFeed h |}.

Definition feed_set (f : feed) (m : gmap string nat) (h : responseChannels)
  : responseChannels :=
  let n := notifications h in
  match f with
  | FTicker =>
      set_notifications
        {| n_TickerFeed := m; n_OrderbookFeed := n_OrderbookFeed n;
           n_TradesFeed := n_TradesFeed n; n_CandlesFeed := n_CandlesFeed n |} h
  | FOrderbookUpd =>
      set_notifications
        {| n_TickerFeed := n_TickerFeed n; n_OrderbookFeed := m;
           n_TradesFeed := n_TradesFeed n; n_CandlesFeed := n_CandlesFeed n |} h
  | FTradesUpd =>
      set_notifications
        {| n_TickerFeed := n_TickerFeed n; n_OrderbookFeed := n_OrderbookFeed n;
           n_TradesFeed := m; n_CandlesFeed := n_CandlesFeed n |} h
  | FCandlesUpd =>
      set_notifications
        {| n_TickerFeed := n_TickerFeed n; n_OrderbookFeed := n_OrderbookFeed n;
           n_TradesFeed := n_TradesFeed n; n_CandlesFeed := m |} h
  | FOrderbookSnap =>
      {| notifications := n; OrderbookFeed := m; TradesFeed := TradesFeed h;
         CandlesFeed := CandlesFeed h; ErrorFeed := ErrorFeed h |}
  | FTradesSnap =>
      {| notifications := n; OrderbookFeed := OrderbookFeed h; TradesFeed := m;
         CandlesFeed := CandlesFeed h; ErrorFeed := ErrorFeed h |}
  | FCandlesSnap =>
      {| notifications := n; OrderbookFeed := OrderbookFeed h;
         TradesFeed := TradesFeed h; CandlesFeed := m; ErrorFeed := ErrorFeed h |}
  end.

Definition set_ErrorFeed (c : nat) (h : responseChannels) : responseChannels :=
  {| notifications := notifications h; OrderbookFeed := OrderbookFeed h;
     TradesFeed := TradesFeed h; CandlesFeed := CandlesFeed h; ErrorFeed := c |}.

(** ** Effects *)

Inductive event : Type :=
| EvCall (op : string) (p : params)   (* conn.Call issued *)
| EvConnClose                         (* conn.Close() *)
| EvMake (c : nat)                    (* make(chan _) returned c *)
| EvClose (c : nat)                   (* close(c) *)
| EvSend (c : nat) (v : value).       (* c <- v handed to the receiver *)

Inductive outcome (A : Type) : Type :=
| Ret (a : A)            (* the function returned *)
| Panic (msg : string)   (* run-time panic *)
| Blocked.               (* the goroutine is parked and does not go on *)
Arguments Ret {A} a.
Arguments Panic {A} msg.
Arguments Blocked {A}.

Definition nil_deref : string :=
  "invalid memory address or nil pointer dereference".
Definition close_nil : string := "close of nil channel".
Definition close_closed : string := "close of closed channel".
Definition send_closed : string := "send on closed channel".

(** The external collaborators: the jsonrpc2 connection and the JSON
    decoder.  [Call] and [ConnClose] are the methods of a non-nil
    [*jsonrpc2.Conn]; the connection has state of its own. *)
Class Transport (T : Type) := {
  Call : T -> string -> params -> call_result * T;
  ConnClose : T -> T }.

(** [json.Unmarshal(message, &msg)] at each of the seven notification
    types: the error, or the decoded message. *)
Class Json := {
  unmarshalTicker : RawMessage -> error + WSNotificationTickerResponse;
  unmarshalOrderbookSnapshot : RawMessage -> error + WSNotificationOrderbookSnapshot;
  unmarshalOrderbookUpdate : RawMessage -> error + WSNotificationOrderbookUpdate;
  unmarshalTradesSnapshot : RawMessage -> error + WSNotificationTradesSnapshot;
  unmarshalTradesUpdate : RawMessage -> error + WSNotificationTradesUpdate;
  unmarshalCandlesSnapshot : RawMessage -> error + WSNotificationCandlesSnapshot;
  unmarshalCandlesUpdate : RawMessage -> error + WSNotificationCandlesUpdate }.

Section Router.
Context {T : Type} {HT : Transport T} {HJ : Json}.

(** [conn] and [updates] are the two fields of [WSClient] (both pointers,
    nil in a zero-valued client); [chans] is the table of channels made so
    far and [trace] the effects performed so far.  The handler registered
    with the connection is the object [updates] points to. *)
Record World := mkWorld {
  conn : option T;
  updates : option responseChannels;
  chans : list chan_state;
  trace : list event }.

Definition with_conn (c : option T) (w : World) : World :=
  mkWorld c (updates w) (chans w) (trace w).
Definition with_updates (u : option responseChannels) (w : World) : World :=
  mkWorld (conn w) u (chans w) (trace w).
Definition with_chans (cs : list chan_state) (w : World) : World :=
  mkWorld (conn w) (updates w) cs (trace w).
Definition emit (e : event) (w : World) : World :=
  mkWorld (conn w) (updates w) (chans w) (trace w ++ [e]).

Definition M (A : Type) : Type := World -> outcome A * World.

Definition ret {A} (a : A) : M A := fun w => (Ret a, w).

Definition bind {A B} (m : M A) (k : A -> M B) : M B :=
  fun w =>
    match m w with
    | (Ret a, w') => k a w'
    | (Panic msg, w') => (Panic msg, w')
    | (Blocked, w') => (Blocked, w')
    end.

Notation "x <- c1 ;; c2" := (bind c1 (fun x => c2))
  (at level 100, c1 at next level, right associativity).
Notation "c1 ;; c2" := (bind c1 (fun _ => c2))
  (at level 100, right associativity).

(** *** Go primitives *)

(** [make(chan _)]: a fresh open channel. *)
Definition go_make : M nat :=
  fun w =>
    let c := length (chans w) in
    (Ret c, emit (EvMake c) (with_chans (chans w ++ [Open]) w)).

(** [close(c)]: panics on the nil channel and on a closed channel.  (An
    index outside the table is no channel of the program; it is treated
    like a closed one, and well-formed worlds have none.) *)
Definition go_close (c : option nat) : M unit :=
  fun w =>
    match c with
    | None => (Panic close_nil, w)
    | Some l =>
        match chans w !! l with
        | Some Open => (Ret tt, emit (EvClose l) (with_chans (<[l := Closed]> (chans w)) w))
        | _ => (Panic close_closed, w)
        end
    end.

(** Who can take a value off a channel.  A channel that a subscribe
    function returned is held by the caller, who is taken to be receiving
    from it.  The error feed is reachable through the unexported field
    [updates] of the client only; the package sends on it (in [Handle]),
    makes it and closes it (in [NewWSClient] and [Close]), and nowhere
    returns it or receives from it: nobody can take a value off it. *)
Inductive holder : Type := Subscriber | Nobody.

(** [c <- v] on a channel held by [r]: a send on the nil channel blocks
    forever and a send on a closed channel panics.  All channels being
    unbuffered, a send on an open channel waits for a receiver: the
    subscriber takes the value and the send completes; with nobody to
    receive, the sender stays parked at the send and nothing is handed
    over. *)
Definition go_send (r : holder) (c : option nat) (v : value) : M unit :=
  fun w =>
    match c with
    | None => (Blocked, w)
    | Some l =>
        match chans w !! l with
        | Some Open =>
            match r with
            | Subscriber => (Ret tt, emit (EvSend l v) w)
            | Nobody => (Blocked, w)
            end
        | _ => (Panic send_closed, w)
        end
    end.

(** What becomes of a sender parked at a send on the open channel [l],
    seen when the table of channels is [cs]: a close of the channel under
    it panics it; as long as the channel is open it stays parked. *)
Definition parked_sender (cs : list chan_state) (l : nat) : outcome unit :=
  match cs !! l with
  | Some Closed => Panic send_closed
  | _ => Blocked
  end.

(** [<-c] with no sender waiting. *)
Inductive recv_result : Type := RecvClosed | RecvBlocks.

Definition go_recv (cs : list chan_state) (c : nat) : recv_result :=
  match cs !! c with
  | Some Closed => RecvClosed
  | _ => RecvBlocks
  end.

(** [c.conn]. *)
Definition get_conn : M (option T) := fun w => (Ret (conn w), w).

(** [*c.updates] (and [*h] in the handler). *)
Definition get_updates : M responseChannels :=
  fun w =>
    match updates w with
    | Some h => (Ret h, w)
    | None => (Panic nil_deref, w)
    end.

Definition put_updates (h : responseChannels) : M unit :=
  fun w => (Ret tt, with_updates (Some h) w).

(** [m[symbol]]: nil when the key is absent. *)
Definition feed_lookup (f : feed) (symbol : string) : M (option nat) :=
  h <- get_updates ;; ret (feed_get f h !! symbol).

(** [m[symbol] = c]. *)
Definition feed_store (f : feed) (symbol : string) (c : nat) : M unit :=
  h <- get_updates ;; put_updates (feed_set f (<[symbol := c]> (feed_get f h)) h).

(** [delete(m, symbol)]. *)
Definition feed_delete (f : feed) (symbol : string) : M unit :=
  h <- get_updates ;; put_updates (feed_set f (delete symbol (feed_get f h)) h).

(** [m = make(map[string]chan _)]. *)
Definition feed_reset (f : feed) : M unit :=
  h <- get_updates ;; put_updates (feed_set f ∅ h).

(** [c.conn.Call(context.Background(), op, request, &success)].  The
    method locks a mutex of its receiver first, so a nil receiver
    panics. *)
Definition conn_Call (op : string) (p : params) : M call_result :=
  fun w =>
    match conn w with
    | None => (Panic nil_deref, w)
    | Some t =>
        let '(r, t') := Call t op p in
        (Ret r, emit (EvCall op p) (with_conn (Some t') w))
    end.

(** [c.conn.Close()]; its error result is discarded by the caller. *)
Definition conn_Close : M unit :=
  fun w =>
    match conn w with
    | None => (Panic nil_deref, w)
    | Some t => (Ret tt, emit EvConnClose (with_conn (Some (ConnClose t)) w))
    end.

(** *** The dispatcher: [(h *responseChannels).Handle] *)

(** One arm of the [switch]: the decode error goes to the error feed,
    which nobody holds; a decoded message goes to the channel its symbol
    is mapped to, which was handed to the subscriber. *)
Definition forward {A} (dec : error + A) (f : feed) (symbol_of : A -> string)
    (inj : A -> value) : M unit :=
  h <- get_updates ;;
  match dec with
  | inl err => go_send Nobody (Some (ErrorFeed h)) (VError err)
  | inr msg => go_send Subscriber (feed_get f h !! symbol_of msg) (inj msg)
  end.

Definition Handle (req : Request) : M unit :=
  match Params req with
  | None => ret tt
  | Some message =>
      let m := Method req in
      if String.eqb m "ticker" then
        forward (unmarshalTicker message) FTicker tk_Symbol VTicker
      else if String.eqb m "snapshotOrderbook" then
        forward (unmarshalOrderbookSnapshot message) FOrderbookSnap os_Symbol
          VOrderbookSnapshot
      else if String.eqb m "updateOrderbook" then
        forward (unmarshalOrderbookUpdate message) FOrderbookUpd ou_Symbol
          VOrderbookUpdate
      else if String.eqb m "snapshotTrades" then
        forward (unmarshalTradesSnapshot message) FTradesSnap ts_Symbol
          VTradesSnapshot
      else if String.eqb m "updateTrades" then
        forward (unmarshalTradesUpdate message) FTradesUpd tu_Symbol VTradesUpdate
      else if String.eqb m "snapshotCandles" then
        forward (unmarshalCandlesSnapshot message) FCandlesSnap cs_Symbol
          VCandlesSnapshot
      else if String.eqb m "updateCandles" then
        forward (unmarshalCandlesUpdate message) FCandlesUpd cu_Symbol
          VCandlesUpdate
      else ret tt
  end.

(** The names the [switch] of [Handle] knows. *)
Definition recognized_methods : list string :=
  ["ticker"; "snapshotOrderbook"; "updateOrderbook"; "snapshotTrades";
   "updateTrades"; "snapshotCandles"; "updateCandles"].

Definition routed {A} (f : feed) (symbol_of : A -> string) (inj : A -> value)
    (dec : error + A) : error + (feed * string * value) :=
  match dec with
  | inl err => inl err
  | inr msg => inr (f, symbol_of msg, inj msg)
  end.

(** The routing table read off the [switch]: for a method the switch
    knows, the decode error or the feed map, the symbol and the value the
    arm sends; [None] for any other method. *)
Definition decode (m : string) (message : RawMessage)
  : option (error + (feed * string * value)) :=
  if String.eqb m "ticker" then
    Some (routed FTicker tk_Symbol VTicker (unmarshalTicker message))
  else if String.eqb m "snapshotOrderbook" then
    Some (routed FOrderbookSnap os_Symbol VOrderbookSnapshot
            (unmarshalOrderbookSnapshot message))
  else if String.eqb m "updateOrderbook" then
    Some (routed FOrderbookUpd ou_Symbol VOrderbookUpdate
            (unmarshalOrderbookUpdate message))
  else if String.eqb m "snapshotTrades" then
    Some (routed FTradesSnap ts_Symbol VTradesSnapshot
            (unmarshalTradesSnapshot message))
  else if String.eqb m "updateTrades" then
    Some (routed FTradesUpd tu_Symbol VTradesUpdate (unmarshalTradesUpdate message))
  else if String.eqb m "snapshotCandles" then
    Some (routed FCandlesSnap cs_Symbol VCandlesSnapshot
            (unmarshalCandlesSnapshot message))
  else if String.eqb m "updateCandles" then
    Some (routed FCandlesUpd cu_Symbol VCandlesUpdate
            (unmarshalCandlesUpdate message))
  else None.

(** *** [NewWSClient] and [Close] *)

Definition empty_notifications : notificationChannels :=
  {| n_TickerFeed := ∅; n_OrderbookFeed := ∅; n_TradesFeed := ∅;
     n_CandlesFeed := ∅ |}.

(** [dial] is the result of [websocket.DefaultDialer.Dial] wrapped by
    [jsonrpc2.NewConn].  The only channel made is the error feed. *)
Definition new_client (c : T) : World :=
  {| conn := Some c;
     updates := Some {| notifications := empty_notifications;
                        OrderbookFeed := ∅; TradesFeed := ∅;
                        CandlesFeed := ∅; ErrorFeed := 0 |};
     chans := [Open];
     trace := [EvMake 0] |}.

Definition NewWSClient (dial : error + T) : error + World :=
  match dial with
  | inl err => inl err
  | inr c => inr (new_client c)
  end.

Fixpoint close_each (l : list nat) : M unit :=
  match l with
  | [] => ret tt
  | c :: l' => go_close (Some c) ;; close_each l'
  end.

(** The channels a [range] over the map visits.  Go leaves the order of
    the visit open; the one of [map_to_list] stands for it. *)
Definition feed_chans (f : feed) (h : responseChannels) : list nat :=
  (map_to_list (feed_get f h)).*2.

(** [for _, channel := range m { close(channel) }]. *)
Definition range_close (f : feed) : M unit :=
  h <- get_updates ;; close_each (feed_chans f h).

Definition Close : M unit :=
  conn_Close ;;
  range_close FTicker ;;
  range_close FTradesUpd ;;
  range_close FCandlesUpd ;;
  range_close FOrderbookUpd ;;
  range_close FOrderbookSnap ;;
  range_close FTradesSnap ;;
  range_close FCandlesSnap ;;
  h <- get_updates ;;
  go_close (Some (ErrorFeed h)) ;;
  feed_reset FTicker ;;
  feed_reset FTradesUpd ;;
  feed_reset FOrderbookUpd ;;
  feed_reset FCandlesUpd ;;
  feed_reset FCandlesSnap ;;
  feed_reset FTradesSnap ;;
  feed_reset FOrderbookSnap ;;
  c <- go_make ;;
  h' <- get_updates ;;
  put_updates (set_ErrorFeed c h').

(** The order in which [Close] ranges over the maps. *)
Definition close_order : list feed :=
  [FTicker; FTradesUpd; FCandlesUpd; FOrderbookUpd;
   FOrderbookSnap; FTradesSnap; FCandlesSnap].

Fixpoint range_close_all (fs : list feed) : M unit :=
  match fs with
  | [] => ret tt
  | f :: fs' => range_close f ;; range_close_all fs'
  end.

(** The channels of the given maps, in the order they are visited. *)
Definition chans_of (fs : list feed) (h : responseChannels) : list nat :=
  concat ((fun f => feed_chans f h) <$> fs).

(** Every channel held by the seven maps, in the order [Close] closes
    them. *)
Definition registered_chans (h : responseChannels) : list nat :=
  chans_of close_order h.

(** The table of channels after the channels of [l] were closed. *)
Fixpoint mark_closed (l : list nat) (cs : list chan_state) : list chan_state :=
  match l with
  | [] => cs
  | c :: l' => mark_closed l' (<[c := Closed]> cs)
  end.

(** The registry [Close] leaves: seven empty maps and a new error
    feed. *)
Definition fresh_registry (errs : nat) : responseChannels :=
  {| notifications := empty_notifications; OrderbookFeed := ∅;
     TradesFeed := ∅; CandlesFeed := ∅; ErrorFeed := errs |}.

(** *** Subscriptions *)

Definition subscriptionOp (op symbol : string) : M (option error) :=
  c <- get_conn ;;
  match c with
  | None => ret (Some (ErrNew "Connection is unitialized"))
  | Some _ =>
      r <- conn_Call op (PSub {| sub_Symbol := symbol |}) ;;
      match r with
      | CallErr err => ret (Some err)
      | CallOk success =>
          if negb success then ret (Some (ErrNew "Subscribe not successful"))
          else ret None
      end
  end.

Definition candlesSubscriptionOp (op symbol period : string) : M (option error) :=
  r <- conn_Call op (PCandles {| csub_Symbol := symbol; csub_Period := period |}) ;;
  match r with
  | CallErr err => ret (Some err)
  | CallOk _ => ret None
  end.

(** [if m[symbol] == nil { m[symbol] = make(chan _) }]. *)
Definition ensure (f : feed) (symbol : string) : M unit :=
  c <- feed_lookup f symbol ;;
  match c with
  | None => c' <- go_make ;; feed_store f symbol c'
  | Some _ => ret tt
  end.

(** [close(m[symbol]); delete(m, symbol)]. *)
Definition close_delete (f : feed) (symbol : string) : M unit :=
  c <- feed_lookup f symbol ;;
  go_close c ;;
  feed_delete f symbol.

Definition SubscribeTicker (symbol : string) : M (option nat * option error) :=
  err <- subscriptionOp "subscribeTicker" symbol ;;
  match err with
  | Some e => ret (None, Some (ErrAnnotate e "Hitbtc SubscribeTicker"))
  | None =>
      ensure FTicker symbol ;;
      c <- feed_lookup FTicker symbol ;;
      ret (c, None)
  end.

Definition UnsubscribeTicker (symbol : string) : M (option error) :=
  err <- subscriptionOp "unsubscribeTicker" symbol ;;
  match err with
  | Some e => ret (Some (ErrAnnotate e "Hitbtc UnsubscribeTicker"))
  | None => close_delete FTicker symbol ;; ret None
  end.

Definition SubscribeTrades (symbol : string)
  : M (option nat * option nat * option error) :=
  err <- subscriptionOp "subscribeTrades" symbol ;;
  match err with
  | Some e => ret (None, None, Some (ErrAnnotate e "Hitbtc SubscribeTrades"))
  | None =>
      ensure FTradesUpd symbol ;;
      ensure FTradesSnap symbol ;;
      u <- feed_lookup FTradesUpd symbol ;;
      s <- feed_lookup FTradesSnap symbol ;;
      ret (u, s, None)
  end.

Definition UnsubscribeTrades (symbol : string) : M (option error) :=
  err <- subscriptionOp "unsubscribeTrades" symbol ;;
  match err with
  | Some e => ret (Some (ErrAnnotate e "Hitbtc UnsubscribeTrades"))
  | None =>
      close_delete FTradesUpd symbol ;;
      close_delete FTradesSnap symbol ;;
      ret None
  end.

Definition SubscribeOrderbook (symbol : string)
  : M (option nat * option nat * option error) :=
  err <- subscriptionOp "subscribeOrderbook" symbol ;;
  match err with
  | Some e => ret (None, None, Some (ErrAnnotate e "Hitbtc SubscribeOrderbook"))
  | None =>
      ensure FOrderbookUpd symbol ;;
      ensure FOrderbookSnap symbol ;;
      u <- feed_lookup FOrderbookUpd symbol ;;
      s <- feed_lookup FOrderbookSnap symbol ;;
      ret (u, s, None)
  end.

Definition UnsubscribeOrderbook (symbol : string) : M (option error) :=
  err <- subscriptionOp "unsubscribeOrderbook" symbol ;;
  match err with
  | Some e => ret (Some (ErrAnnotate e "Hitbtc UnsubscribeOrderbook"))
  | None =>
      close_delete FOrderbookUpd symbol ;;
      close_delete FOrderbookSnap symbol ;;
      ret None
  end.

Definition SubscribeCandles (symbol timeframe : string)
  : M (option nat * option nat * option error) :=
  err <- candlesSubscriptionOp "subscribeCandles" symbol timeframe ;;
  match err with
  | Some e => ret (None, None, Some (ErrAnnotate e "Hitbtc SubscribeCandles"))
  | None =>
      ensure FCandlesUpd symbol ;;
      ensure FCandlesSnap symbol ;;
      u <- feed_lookup FCandlesUpd symbol ;;
      s <- feed_lookup FCandlesSnap symbol ;;
      ret (u, s, None)
  end.

Definition UnsubscribeCandles (symbol timeframe : string) : M (option error) :=
  err <- candlesSubscriptionOp "unsubscribeCandles" symbol timeframe ;;
  match err with
  | Some e => ret (Some (ErrAnnotate e "Hitbtc UnsubscribeCandles"))
  | None =>
      close_delete FCandlesUpd symbol ;;
      close_delete FCandlesSnap symbol ;;
      ret None
  end.

(** *** The four topic kinds, for statements that range over them *)

Inductive topic : Type := Ticker | Trades | Orderbook | Candles.

Global Instance topic_eq_dec : EqDecision topic.
Proof. solve_decision. Defined.

(** The feed maps a topic kind owns, update map first. *)
Definition topic_feeds (K : topic) : list feed :=
  match K with
  | Ticker => [FTicker]
  | Trades => [FTradesUpd; FTradesSnap]
  | Orderbook => [FOrderbookUpd; FOrderbookSnap]
  | Candles => [FCandlesUpd; FCandlesSnap]
  end.

Definition subscribe_method (K : topic) : string :=
  match K with
  | Ticker => "subscribeTicker"
  | Trades => "subscribeTrades"
  | Orderbook => "subscribeOrderbook"
  | Candles => "subscribeCandles"
  end.

Definition unsubscribe_method (K : topic) : string :=
  match K with
  | Ticker => "unsubscribeTicker"
  | Trades => "unsubscribeTrades"
  | Orderbook => "unsubscribeOrderbook"
  | Candles => "unsubscribeCandles"
  end.

Definition topic_params (K : topic) (symbol period : string) : params :=
  match K with
  | Candles => PCandles {| csub_Symbol := symbol; csub_Period := period |}
  | _ => PSub {| sub_Symbol := symbol |}
  end.

Definition pair_result (r : option nat * option nat * option error)
  : list (option nat) * option error :=
  let '(u, s, e) := r in ([u; s], e).

(** The subscribe function of a topic kind; [period] is read by candles
    only.  The channels returned are listed update channel first. *)
Definition subscribe (K : topic) (symbol period : string)
  : M (list (option nat) * option error) :=
  match K with
  | Ticker => r <- SubscribeTicker symbol ;; ret ([r.1], r.2)
  | Trades => r <- SubscribeTrades symbol ;; ret (pair_result r)
  | Orderbook => r <- SubscribeOrderbook symbol ;; ret (pair_result r)
  | Candles => r <- SubscribeCandles symbol period ;; ret (pair_result r)
  end.

Definition unsubscribe (K : topic) (symbol period : string) : M (option error) :=
  match K with
  | Ticker => UnsubscribeTicker symbol
  | Trades => UnsubscribeTrades symbol
  | Orderbook => UnsubscribeOrderbook symbol
  | Candles => UnsubscribeCandles symbol period
  end.

(** *** The per-topic functions, read uniformly

    The eight functions differ in the method name, the annotation, the
    guard they go through and the maps they touch; the definitions below
    name those differences, and [subscribe_uniform] and
    [unsubscribe_uniform] are the common shape (shown equal to the
    functions above in the properties). *)

Definition subscribe_label (K : topic) : string :=
  match K with
  | Ticker => "Hitbtc SubscribeTicker"
  | Trades => "Hitbtc SubscribeTrades"
  | Orderbook => "Hitbtc SubscribeOrderbook"
  | Candles => "Hitbtc SubscribeCandles"
  end.

Definition unsubscribe_label (K : topic) : string :=
  match K with
  | Ticker => "Hitbtc UnsubscribeTicker"
  | Trades => "Hitbtc UnsubscribeTrades"
  | Orderbook => "Hitbtc UnsubscribeOrderbook"
  | Candles => "Hitbtc UnsubscribeCandles"
  end.

(** Candles go through [candlesSubscriptionOp], the others through
    [subscriptionOp]. *)
Definition topic_op (K : topic) (op symbol period : string) : M (option error) :=
  match K with
  | Candles => candlesSubscriptionOp op symbol period
  | _ => subscriptionOp op symbol
  end.

Fixpoint ensure_all (fs : list feed) (symbol : string) : M unit :=
  match fs with
  | [] => ret tt
  | f :: fs' => ensure f symbol ;; ensure_all fs' symbol
  end.

Fixpoint lookup_all (fs : list feed) (symbol : string) : M (list (option nat)) :=
  match fs with
  | [] => ret []
  | f :: fs' =>
      c <- feed_lookup f symbol ;;
      cs <- lookup_all fs' symbol ;;
      ret (c :: cs)
  end.

Fixpoint close_delete_all (fs : list feed) (symbol : string) : M unit :=
  match fs with
  | [] => ret tt
  | f :: fs' => close_delete f symbol ;; close_delete_all fs' symbol
  end.

Definition subscribe_uniform (K : topic) (symbol period : string)
  : M (list (option nat) * option error) :=
  err <- topic_op K (subscribe_method K) symbol period ;;
  match err with
  | Some e =>
      ret (replicate (length (topic_feeds K)) None,
           Some (ErrAnnotate e (subscribe_label K)))
  | None =>
      ensure_all (topic_feeds K) symbol ;;
      cs <- lookup_all (topic_feeds K) symbol ;;
      ret (cs, None)
  end.

Definition unsubscribe_uniform (K : topic) (symbol period : string)
  : M (option error) :=
  err <- topic_op K (unsubscribe_method K) symbol period ;;
  match err with
  | Some e => ret (Some (ErrAnnotate e (unsubscribe_label K)))
  | None => close_delete_all (topic_feeds K) symbol ;; ret None
  end.

(** The error [subscriptionOp] returns on a false acknowledgment. *)
Definition rejected : error := ErrNew "Subscribe not successful".

(** What the guard of a topic kind makes of the transport's reply. *)
Definition guard_result (K : topic) (r : call_result) : option error :=
  match r with
  | CallErr err => Some err
  | CallOk success =>
      match K with
      | Candles => None
      | _ => if success then None else Some rejected
      end
  end.

(** ** Well-formed registries *)

(** [m[symbol]] read through the client; nil when there is none. *)
Definition entry (w : World) (f : feed) (symbol : string) : option nat :=
  match updates w with
  | Some h => feed_get f h !! symbol
  | None => None
  end.

(** The state the constructor establishes and every method keeps: each
    registered channel is open, no channel is registered twice, and the
    error feed is open and apart from the registered channels. *)
Record wf_core (h : responseChannels) (cs : list chan_state) : Prop := {
  wf_open : forall f s l, feed_get f h !! s = Some l -> cs !! l = Some Open;
  wf_inj : forall f1 s1 f2 s2 l,
      feed_get f1 h !! s1 = Some l -> feed_get f2 h !! s2 = Some l ->
      f1 = f2 /\ s1 = s2;
  wf_err_open : cs !! ErrorFeed h = Some Open;
  wf_err_apart : forall f s, feed_get f h !! s <> Some (ErrorFeed h) }.

Definition wf (w : World) : Prop :=
  is_Some (conn w) /\
  exists h, updates w = Some h /\ wf_core h (chans w).

(** The world after [conn.Call(op, p)] that left the connection as [t']. *)
Definition called (op : string) (p : params) (t' : T) (w : World) : World :=
  emit (EvCall op p) (with_conn (Some t') w).

(** The maps of a topic kind hold the same symbols: a symbol has its
    update channel exactly when it has its snapshot channel. *)
Definition paired (w : World) : Prop :=
  forall K f1 f2 s,
    f1 ∈ topic_feeds K -> f2 ∈ topic_feeds K ->
    is_Some (entry w f1 s) -> is_Some (entry w f2 s).

(** Every key outside the given maps at the given symbol is mapped in
    [w'] as it is in [w]. *)
Definition same_elsewhere (fs : list feed) (s : string) (w w' : World) : Prop :=
  forall f' s', ~ (f' ∈ fs /\ s' = s) -> entry w' f' s' = entry w f' s'.

(** Every open channel is the error feed or is registered under some
    key. *)
Definition no_orphan (w : World) : Prop :=
  forall l, chans w !! l = Some Open ->
    exists h,
      updates w = Some h /\
      (l = ErrorFeed h \/ exists f s, feed_get f h !! s = Some l).

(** A computation that keeps [no_orphan], however it ends. *)
Definition keeps_no_orphan {A} (m : M A) : Prop :=
  forall w, no_orphan w -> no_orphan (m w).2.

(** *** Reachable worlds *)

(** One call of a method of the client or of the handler, whatever its
    arguments and however it ends. *)
Inductive step : World -> World -> Prop :=
| step_SubscribeTicker s w : step w (SubscribeTicker s w).2
| step_UnsubscribeTicker s w : step w (UnsubscribeTicker s w).2
| step_SubscribeTrades s w : step w (SubscribeTrades s w).2
| step_UnsubscribeTrades s w : step w (UnsubscribeTrades s w).2
| step_SubscribeOrderbook s w : step w (SubscribeOrderbook s w).2
| step_UnsubscribeOrderbook s w : step w (UnsubscribeOrderbook s w).2
| step_SubscribeCandles s p w : step w (SubscribeCandles s p w).2
| step_UnsubscribeCandles s p w : step w (UnsubscribeCandles s p w).2
| step_Handle req w : step w (Handle req w).2
| step_Close w : step w (Close w).2.

(** The worlds a client made by [NewWSClient] can be in when its methods
    are called one after the other. *)
Inductive reachable : World -> Prop :=
| reachable_new c : reachable (new_client c)
| reachable_step w w' : reachable w -> step w w' -> reachable w'.

(** A computation that keeps worlds well formed, however it ends. *)
Definition preserves {A} (m : M A) : Prop := forall w, wf w -> wf (m w).2.

(** The error the guarded functions return on a nil connection. *)
Definition uninitialized (op : string) : option error :=
  Some (ErrAnnotate (ErrNew "Connection is unitialized") op).

End Router.

(** ** Test doubles for the collaborators *)

(** A scripted connection: each call consumes the next reply; a closed or
    exhausted connection answers with an error. *)
Definition script_Call (t : list call_result) (op : string) (p : params)
  : call_result * list call_result :=
  match t with
  | r :: t' => (r, t')
  | [] => (CallErr (ErrForeign "jsonrpc2: connection is closed"), [])
  end.

Definition ScriptTransport : Transport (list call_result) :=
  {| Call := script_Call; ConnClose := fun _ => [] |}.

(** A decoder for payloads that consist of the symbol alone; the empty
    payload does not decode. *)
Definition toy_decode {A} (mk : string -> A) (raw : RawMessage) : error + A :=
  if String.eqb raw "" then inl (ErrForeign "unexpected end of JSON input")
  else inr (mk raw).

Definition toy_trade : WSTrades :=
  {| tr_ID := 0; tr_Price := ""; tr_Quantity := ""; tr_Side := "";
     tr_Timestamp := "" |}.

Definition toy_candle : WSCandles :=
  {| cd_Timestamp := ""; cd_Open := ""; cd_Close := ""; cd_Min := "";
     cd_Max := ""; cd_Volume := ""; cd_VolumeQuote := "" |}.

Definition ToyJson : Json :=
  {| unmarshalTicker := toy_decode (fun s =>
       {| tk_Ask := ""; tk_Bid := ""; tk_Last := ""; tk_Open := "";
          tk_Low := ""; tk_High := ""; tk_Volume := ""; tk_VolumeQuote := "";
          tk_Timestamp := ""; tk_Symbol := s |});
     unmarshalOrderbookSnapshot := toy_decode (fun s =>
       {| os_Ask := []; os_Bid := []; os_Symbol := s; os_Sequence := 0 |});
     unmarshalOrderbookUpdate := toy_decode (fun s =>
       {| ou_Ask := []; ou_Bid := []; ou_Symbol := s; ou_Sequence := 0 |});
     unmarshalTradesSnapshot := toy_decode (fun s =>
       {| ts_Data := []; ts_Symbol := s |});
     unmarshalTradesUpdate := toy_decode (fun s =>
       {| tu_Data := toy_trade; tu_Symbol := s |});
     unmarshalCandlesSnapshot := toy_decode (fun s =>
       {| cs_Data := []; cs_Symbol := s; cs_Period := "" |});
     unmarshalCandlesUpdate := toy_decode (fun s =>
       {| cu_Data := toy_candle; cu_Symbol := s; cu_Period := "" |}) |}.

(** A zero-valued [WSClient]: both pointers nil. *)
Definition zero_client : @World (list call_result) := mkWorld None None [] [].

(** The client [NewWSClient] returns on a connection with the given
    script of replies. *)
Definition demo_client (script : list call_result) : @World (list call_result) :=
  new_client script.

(** The same client after [SubscribeOrderbook("ETHBTC")] was acknowledged;
    [ack] is the reply the script holds for the next call. *)
Definition orderbook_client (ack : bool) : @World (list call_result) :=
  (@SubscribeOrderbook _ ScriptTransport "ETHBTC"
     (demo_client [CallOk true; CallOk ack])).2.

(** * Properties *)

Section RouterProofs.
Context {T : Type} {HT : Transport T} {HJ : Json}.

Local Abbreviation World := (@World T).
Local Abbreviation M := (@M T).
Local Abbreviation preserves := (@preserves T _).

Notation "x <- c1 ;; c2" := (bind c1 (fun x => c2))
  (at level 100, c1 at next level, right associativity).
Notation "c1 ;; c2" := (bind c1 (fun _ => c2))
  (at level 100, right associativity).

Lemma feed_get_set (f f' : feed) (m : gmap string nat) (h : responseChannels) :
  feed_get f' (feed_set f m h) = if decide (f = f') then m else feed_get f' h.
Proof. destruct f, f'; reflexivity. Qed.

Lemma ErrorFeed_feed_set (f : feed) (m : gmap string nat) (h : responseChannels) :
  ErrorFeed (feed_set f m h) = ErrorFeed h.
Proof. destruct f; reflexivity. Qed.

Lemma lookup_feed_insert (f f' : feed) (s s' : string) (c : nat)
    (h : responseChannels) :
  feed_get f' (feed_set f (<[s := c]> (feed_get f h)) h) !! s' =
  if decide (f = f' /\ s = s') then Some c else feed_get f' h !! s'.
Proof.
  rewrite feed_get_set.
  destruct (decide (f = f')) as [<-|Hf].
  - destruct (decide (s = s')) as [<-|Hs].
    + rewrite lookup_insert_eq. rewrite decide_True; auto.
    + rewrite lookup_insert_ne by done. rewrite decide_False; tauto.
  - rewrite decide_False; tauto.
Qed.

Lemma lookup_feed_delete (f f' : feed) (s s' : string) (h : responseChannels) :
  feed_get f' (feed_set f (delete s (feed_get f h)) h) !! s' =
  if decide (f = f' /\ s = s') then None else feed_get f' h !! s'.
Proof.
  rewrite feed_get_set.
  destruct (decide (f = f')) as [<-|Hf].
  - destruct (decide (s = s')) as [<-|Hs].
    + rewrite lookup_delete_eq. rewrite decide_True; auto.
    + rewrite lookup_delete_ne by done. rewrite decide_False; tauto.
  - rewrite decide_False; tauto.
Qed.

(** Registering a fresh channel keeps the registry well formed. *)
Lemma wf_core_alloc (h : responseChannels) (cs : list chan_state) (f : feed)
    (s : string) :
  wf_core h cs ->
  wf_core (feed_set f (<[s := length cs]> (feed_get f h)) h) (cs ++ [Open]).
Proof.
  intros [Hopen Hinj Herr Hapart].
  assert (Hlt : forall f' s' l, feed_get f' h !! s' = Some l -> l < length cs).
  { intros f' s' l Hl. apply Hopen in Hl. eapply lookup_lt_Some, Hl. }
  split.
  - intros f' s' l. rewrite lookup_feed_insert.
    case_decide as Hd.
    + intros [= <-]. rewrite lookup_app_r by lia.
      replace (length cs - length cs) with 0 by lia. reflexivity.
    + intros Hl. rewrite lookup_app_l by eauto. eauto.
  - intros f1 s1 f2 s2 l. rewrite !lookup_feed_insert.
    case_decide as H1; case_decide as H2.
    + intros _ _. destruct H1 as [<- <-], H2 as [<- <-]. auto.
    + intros [= <-] Hl. apply Hlt in Hl. lia.
    + intros Hl [= <-]. apply Hlt in Hl. lia.
    + apply Hinj.
  - rewrite ErrorFeed_feed_set. rewrite lookup_app_l; [done|].
    eapply lookup_lt_Some, Herr.
  - intros f' s'. rewrite ErrorFeed_feed_set, lookup_feed_insert.
    case_decide as Hd; [|apply Hapart].
    intros [= Heq]. apply lookup_lt_Some in Herr. lia.
Qed.

(** Closing a registered channel and deleting its key keeps the registry
    well formed. *)
Lemma wf_core_release (h : responseChannels) (cs : list chan_state) (f : feed)
    (s : string) (l : nat) :
  wf_core h cs -> feed_get f h !! s = Some l ->
  wf_core (feed_set f (delete s (feed_get f h)) h) (<[l := Closed]> cs).
Proof.
  intros [Hopen Hinj Herr Hapart] Hl.
  split.
  - intros f' s' l'. rewrite lookup_feed_delete.
    case_decide as Hd; [done|]. intros Hl'.
    rewrite list_lookup_insert_ne; [eauto|].
    intros <-. destruct (Hinj _ _ _ _ _ Hl Hl'). tauto.
  - intros f1 s1 f2 s2 l'. rewrite !lookup_feed_delete.
    repeat case_decide; try done. apply Hinj.
  - rewrite ErrorFeed_feed_set. rewrite list_lookup_insert_ne; [done|].
    intros Heq. subst l. by apply Hapart in Hl.
  - intros f' s'. rewrite ErrorFeed_feed_set, lookup_feed_delete.
    case_decide; [done|apply Hapart].
Qed.

(** ** Running the steps *)

Ltac run :=
  unfold ensure, close_delete, feed_lookup, feed_store, feed_delete, feed_reset,
    put_updates, get_updates, get_conn, go_make, go_close, go_send, conn_Call,
    conn_Close, bind, ret, called, emit, with_conn, with_chans, with_updates;
  simpl.

Lemma wf_called (op : string) (p : params) (t' : T) (w : World) :
  wf w -> wf (called op p t' w).
Proof. intros [_ Hh]. split; [by eexists|exact Hh]. Qed.

Lemma entry_called (op : string) (p : params) (t' : T) (w : World) f s :
  entry (called op p t' w) f s = entry w f s.
Proof. reflexivity. Qed.

Lemma subscriptionOp_nil (op symbol : string) (w : World) :
  conn w = None ->
  subscriptionOp op symbol w = (Ret (Some (ErrNew "Connection is unitialized")), w).
Proof. intros Hc. unfold subscriptionOp. run. by rewrite Hc. Qed.

Lemma subscriptionOp_call (op symbol : string) (w : World) (t t' : T)
    (r : call_result) :
  conn w = Some t ->
  Call t op (PSub {| sub_Symbol := symbol |}) = (r, t') ->
  subscriptionOp op symbol w =
    (Ret match r with
         | CallErr err => Some err
         | CallOk true => None
         | CallOk false => Some (ErrNew "Subscribe not successful")
         end,
     called op (PSub {| sub_Symbol := symbol |}) t' w).
Proof.
  intros Hc Hcall. unfold subscriptionOp. run.
  repeat (first [rewrite Hc | rewrite Hcall]; simpl).
  by destruct r as [e|[]].
Qed.

Lemma candlesSubscriptionOp_nil (op symbol period : string) (w : World) :
  conn w = None ->
  candlesSubscriptionOp op symbol period w = (Panic nil_deref, w).
Proof. intros Hc. unfold candlesSubscriptionOp. run. by rewrite Hc. Qed.

Lemma candlesSubscriptionOp_call (op symbol period : string) (w : World)
    (t t' : T) (r : call_result) :
  conn w = Some t ->
  Call t op (PCandles {| csub_Symbol := symbol; csub_Period := period |}) = (r, t') ->
  candlesSubscriptionOp op symbol period w =
    (Ret match r with CallErr err => Some err | CallOk _ => None end,
     called op (PCandles {| csub_Symbol := symbol; csub_Period := period |}) t' w).
Proof.
  intros Hc Hcall. unfold candlesSubscriptionOp. run.
  repeat (first [rewrite Hc | rewrite Hcall]; simpl).
  by destruct r.
Qed.

Lemma feed_lookup_entry (f : feed) (s : string) (w : World) :
  is_Some (updates w) -> feed_lookup f s w = (Ret (entry w f s), w).
Proof. intros [h Hu]. unfold entry. run. by rewrite Hu. Qed.

Lemma ensure_present (f : feed) (s : string) (w : World) (l : nat) :
  entry w f s = Some l -> ensure f s w = (Ret tt, w).
Proof.
  unfold entry. run. destruct (updates w) as [h|]; [|done].
  by intros ->.
Qed.

Lemma ensure_absent (f : feed) (s : string) (w : World) (h : responseChannels) :
  updates w = Some h -> feed_get f h !! s = None ->
  ensure f s w =
    (Ret tt,
     mkWorld (conn w)
       (Some (feed_set f (<[s := length (chans w)]> (feed_get f h)) h))
       (chans w ++ [Open]) (trace w ++ [EvMake (length (chans w))])).
Proof. intros Hu Hn. run. rewrite Hu. simpl. rewrite Hn. simpl. by rewrite Hu. Qed.

(** [ensure] never fails on a well-formed world: afterwards the key is
    mapped to a channel, every key that was mapped is mapped as before,
    and no other key appeared. *)
Lemma ensure_wf (f : feed) (s : string) (w : World) :
  wf w ->
  exists w' l,
    ensure f s w = (Ret tt, w') /\ wf w' /\ conn w' = conn w /\
    entry w' f s = Some l /\
    (forall f' s', ~ (f = f' /\ s = s') -> entry w' f' s' = entry w f' s') /\
    (forall f' s' l', entry w f' s' = Some l' -> entry w' f' s' = Some l').
Proof.
  intros Hwf. pose proof Hwf as [Hc (h & Hu & Hcore)].
  destruct (feed_get f h !! s) as [l|] eqn:Hl.
  - exists w, l. rewrite (ensure_present f s w l) by (unfold entry; by rewrite Hu).
    split; [reflexivity|]. split; [exact Hwf|].
    unfold entry. rewrite Hu. auto.
  - eexists _, (length (chans w)). rewrite (ensure_absent f s w h Hu Hl).
    split; [reflexivity|]. split; [|split; [reflexivity|]].
    + split; [exact Hc|]. eexists. split; [reflexivity|]. simpl.
      by apply wf_core_alloc.
    + unfold entry. simpl. rewrite Hu. split; [|split].
      * rewrite lookup_feed_insert. rewrite decide_True; auto.
      * intros f' s' Hne. rewrite lookup_feed_insert. by rewrite decide_False.
      * intros f' s' l' Hl'. rewrite lookup_feed_insert.
        rewrite decide_False; [done|]. intros [<- <-]. congruence.
Qed.

Lemma close_delete_absent (f : feed) (s : string) (w : World) :
  is_Some (updates w) -> entry w f s = None ->
  close_delete f s w = (Panic close_nil, w).
Proof.
  intros [h Hu]. unfold entry. rewrite Hu. intros Hn. run.
  rewrite Hu. simpl. by rewrite Hn.
Qed.

(** On a well-formed world [close(m[symbol]); delete(m, symbol)] succeeds
    for a registered key. *)
Lemma close_delete_wf (f : feed) (s : string) (w : World) (l : nat) :
  wf w -> entry w f s = Some l ->
  exists w',
    close_delete f s w = (Ret tt, w') /\ wf w' /\ conn w' = conn w /\
    entry w' f s = None /\
    (forall f' s', ~ (f = f' /\ s = s') -> entry w' f' s' = entry w f' s') /\
    chans w' = <[l := Closed]> (chans w) /\
    trace w' = trace w ++ [EvClose l].
Proof.
  intros [Hc (h & Hu & Hcore)]. unfold entry. rewrite Hu. intros Hl.
  eexists. split.
  - run. rewrite Hu. simpl. rewrite Hl. simpl.
    rewrite (wf_open _ _ Hcore _ _ _ Hl). simpl. rewrite Hu. reflexivity.
  - simpl. split; [|split; [reflexivity|]].
    + split; [exact Hc|]. eexists. split; [reflexivity|]. simpl.
      by apply wf_core_release.
    + unfold entry. simpl. repeat split.
      * rewrite lookup_feed_delete. rewrite decide_True; auto.
      * intros f' s' Hne. rewrite lookup_feed_delete. by rewrite decide_False.
Qed.

(** ** The dispatcher *)

Lemma forward_routed {A} (dec : error + A) (f : feed) (symbol_of : A -> string)
    (inj : A -> value) (w : World) :
  forward dec f symbol_of inj w =
    match routed f symbol_of inj dec with
    | inl err =>
        (h <- get_updates ;; go_send Nobody (Some (ErrorFeed h)) (VError err)) w
    | inr (f', symbol, v) =>
        (h <- get_updates ;; go_send Subscriber (feed_get f' h !! symbol) v) w
    end.
Proof. by destruct dec. Qed.

(** [Handle] does what the routing table says. *)
Lemma Handle_decode (req : Request) (w : World) :
  Handle req w =
    match Params req with
    | None => (Ret tt, w)
    | Some message =>
        match decode (Method req) message with
        | None => (Ret tt, w)
        | Some (inl err) =>
            (h <- get_updates ;;
             go_send Nobody (Some (ErrorFeed h)) (VError err)) w
        | Some (inr (f, symbol, v)) =>
            (h <- get_updates ;;
             go_send Subscriber (feed_get f h !! symbol) v) w
        end
    end.
Proof.
  unfold Handle, decode. destruct (Params req) as [message|]; [|done].
  repeat (case_match; [by rewrite forward_routed|]). done.
Qed.

Lemma decode_recognized (m : string) (message : RawMessage) :
  is_Some (decode m message) <-> m ∈ recognized_methods.
Proof.
  unfold decode, recognized_methods.
  repeat match goal with
    | |- context [String.eqb m ?x] =>
        destruct (String.eqb_spec m x) as [->|?];
        [split; [intros _; repeat constructor|intros _; by eexists]|]
    end.
  split; [by intros [? ?]|]. intros Hin.
  repeat (apply elem_of_cons in Hin as [?|Hin]; [done|]).
  by apply elem_of_nil in Hin.
Qed.

(** C8: a message whose method is none of the seven notification methods
    makes [Handle] return at once: the world is left as it was, so no
    value was sent on a subscriber channel or on the error feed (the trace
    did not grow), no map and no channel changed, and there is no
    panic. *)
Theorem Handle_unknown_method_ignored (req : Request) (w : World) :
  Method req ∉ recognized_methods ->
  Handle req w = (Ret tt, w).
Proof.
  intros Hm. rewrite Handle_decode.
  destruct (Params req) as [message|]; [|done].
  destruct (decode (Method req) message) eqn:Hd; [|done].
  exfalso. apply Hm, (decode_recognized _ message). rewrite Hd. by eexists.
Qed.

(** C3, what the code does: for a recognized method whose payload decodes
    to a symbol with no registered channel, the send goes to the nil
    channel the map lookup yields, so the handler goroutine blocks forever
    instead of dropping the message and returning.  Nothing is sent and
    nothing panics. *)
Theorem Handle_unregistered_symbol_blocks (req : Request) (message : RawMessage)
    (f : feed) (symbol : string) (v : value) (w : World) :
  Params req = Some message ->
  decode (Method req) message = Some (inr (f, symbol, v)) ->
  is_Some (updates w) ->
  entry w f symbol = None ->
  Handle req w = (Blocked, w).
Proof.
  intros Hp Hd [h Hu]. unfold entry. rewrite Hu. intros Hn.
  rewrite Handle_decode, Hp, Hd. run. rewrite Hu. simpl. by rewrite Hn.
Qed.

(** ** The nil-connection guard *)

Lemma uninitialized_Cause (op : string) (e : error) :
  uninitialized op = Some e ->
  Cause e = ErrNew "Connection is unitialized" /\
  Error e = (op ++ ": Connection is unitialized")%string.
Proof. by intros [= <-]. Qed.

(** C10: on a client whose connection is nil the ticker, trades and
    order-book functions return the error "Connection is unitialized"
    (annotated with the operation) and leave the world as it was: no
    transport call is in the trace and no feed map changed.  The candles
    functions have no such check: they call into the nil connection, which
    panics. *)
Theorem nil_conn_guard (symbol period : string) (w : World) :
  conn w = None ->
  SubscribeTicker symbol w = (Ret (None, uninitialized "Hitbtc SubscribeTicker"), w) /\
  UnsubscribeTicker symbol w = (Ret (uninitialized "Hitbtc UnsubscribeTicker"), w) /\
  SubscribeTrades symbol w =
    (Ret (None, None, uninitialized "Hitbtc SubscribeTrades"), w) /\
  UnsubscribeTrades symbol w = (Ret (uninitialized "Hitbtc UnsubscribeTrades"), w) /\
  SubscribeOrderbook symbol w =
    (Ret (None, None, uninitialized "Hitbtc SubscribeOrderbook"), w) /\
  UnsubscribeOrderbook symbol w =
    (Ret (uninitialized "Hitbtc UnsubscribeOrderbook"), w) /\
  SubscribeCandles symbol period w = (Panic nil_deref, w) /\
  UnsubscribeCandles symbol period w = (Panic nil_deref, w).
Proof.
  intros Hc.
  unfold SubscribeTicker, UnsubscribeTicker, SubscribeTrades, UnsubscribeTrades,
    SubscribeOrderbook, UnsubscribeOrderbook, SubscribeCandles,
    UnsubscribeCandles, bind.
  rewrite !subscriptionOp_nil, !candlesSubscriptionOp_nil by exact Hc.
  repeat split.
Qed.

(** ** Subscriptions *)

Lemma wf_core_fresh (cs : list chan_state) :
  wf_core (fresh_registry (length cs)) (cs ++ [Open]).
Proof.
  split; simpl.
  - intros f s l. by destruct f.
  - intros f1 s1 f2 s2 l. by destruct f1.
  - rewrite lookup_app_r by done. by replace (_ - _) with 0 by lia.
  - intros f s. by destruct f.
Qed.

Lemma new_client_wf (c : T) : wf (new_client c).
Proof.
  split; [by eexists|]. exists (fresh_registry 0). split; [reflexivity|].
  apply (wf_core_fresh []).
Qed.

Lemma subscribe_uniform_eq (K : topic) (symbol period : string) (w : World) :
  subscribe K symbol period w = subscribe_uniform K symbol period w.
Proof.
  destruct K; unfold subscribe, subscribe_uniform, topic_op, SubscribeTicker,
    SubscribeTrades, SubscribeOrderbook, SubscribeCandles, pair_result, bind, ret;
    simpl; unfold bind, ret;
    repeat (case_match; simplify_eq; try done).
Qed.

Lemma unsubscribe_uniform_eq (K : topic) (symbol period : string) (w : World) :
  unsubscribe K symbol period w = unsubscribe_uniform K symbol period w.
Proof.
  destruct K; unfold unsubscribe, unsubscribe_uniform, topic_op, UnsubscribeTicker,
    UnsubscribeTrades, UnsubscribeOrderbook, UnsubscribeCandles, bind, ret;
    simpl; unfold bind, ret;
    repeat (case_match; simplify_eq; try done).
Qed.

Lemma topic_op_call (K : topic) (op symbol period : string) (w : World)
    (t t' : T) (r : call_result) :
  conn w = Some t ->
  Call t op (topic_params K symbol period) = (r, t') ->
  topic_op K op symbol period w =
    (Ret (guard_result K r), called op (topic_params K symbol period) t' w).
Proof.
  intros Hc Hcall.
  destruct K; simpl in *;
    first [ rewrite (subscriptionOp_call _ _ _ _ _ _ Hc Hcall)
          | rewrite (candlesSubscriptionOp_call _ _ _ _ _ _ _ Hc Hcall) ];
    by destruct r as [e|[]].
Qed.

Lemma ensure_all_wf (fs : list feed) (s : string) (w : World) :
  wf w ->
  exists w',
    ensure_all fs s w = (Ret tt, w') /\ wf w' /\ conn w' = conn w /\
    (forall f, f ∈ fs -> is_Some (entry w' f s)) /\
    (forall f' s' l', entry w f' s' = Some l' -> entry w' f' s' = Some l').
Proof.
  revert w. induction fs as [|f fs IH]; intros w Hwf.
  - exists w. split; [reflexivity|]. split; [done|]. split; [done|].
    split; [|done]. intros f Hf. by apply elem_of_nil in Hf.
  - destruct (ensure_wf f s w Hwf) as (w1 & l & Hrun & Hwf1 & Hc1 & Hl & _ & Hkeep1).
    destruct (IH w1 Hwf1) as (w' & Hrun' & Hwf' & Hc' & Hall & Hkeep').
    exists w'. simpl. unfold bind. rewrite Hrun, Hrun'.
    split; [reflexivity|]. split; [exact Hwf'|]. split; [congruence|]. split.
    + intros f' [->|Hf']%elem_of_cons; [|auto].
      rewrite (Hkeep' _ _ _ Hl). by eexists.
    + eauto.
Qed.

Lemma ensure_all_present (fs : list feed) (s : string) (w : World) :
  (forall f, f ∈ fs -> is_Some (entry w f s)) ->
  ensure_all fs s w = (Ret tt, w).
Proof.
  induction fs as [|f fs IH]; intros Hall; [done|].
  simpl. unfold bind.
  destruct (Hall f) as [l Hl]; [by left|].
  rewrite (ensure_present f s w l Hl). apply IH.
  intros f' Hf'. apply Hall. by right.
Qed.

Lemma lookup_all_entry (fs : list feed) (s : string) (w : World) :
  is_Some (updates w) ->
  lookup_all fs s w = (Ret ((fun f => entry w f s) <$> fs), w).
Proof.
  intros Hu. induction fs as [|f fs IH]; [done|].
  simpl. unfold bind. by rewrite feed_lookup_entry, IH.
Qed.

Lemma closed_stays_closed (cs : list chan_state) (l l0 : nat) :
  cs !! l0 = Some Closed -> <[l := Closed]> cs !! l0 = Some Closed.
Proof.
  intros Hl0. destruct (decide (l = l0)) as [->|Hne].
  - apply list_lookup_insert_eq. eapply lookup_lt_Some, Hl0.
  - by rewrite list_lookup_insert_ne.
Qed.

(** Releasing the keys of several distinct maps, all of them registered. *)
Lemma close_delete_all_wf (fs : list feed) (s : string) (w : World) :
  wf w -> NoDup fs ->
  (forall f, f ∈ fs -> is_Some (entry w f s)) ->
  exists w',
    close_delete_all fs s w = (Ret tt, w') /\ wf w' /\ conn w' = conn w /\
    (forall f, f ∈ fs -> entry w' f s = None) /\
    (forall f l, f ∈ fs -> entry w f s = Some l -> chans w' !! l = Some Closed) /\
    (forall f' s', ~ (f' ∈ fs /\ s' = s) -> entry w' f' s' = entry w f' s') /\
    (forall l, chans w !! l = Some Closed -> chans w' !! l = Some Closed).
Proof.
  revert w. induction fs as [|f fs IH]; intros w Hwf Hnd Hall.
  - exists w. split; [reflexivity|]. split; [done|]. split; [done|].
    split; [|split; [|done]]; [intros f Hf|intros f l Hf];
      by apply elem_of_nil in Hf.
  - apply NoDup_cons in Hnd as [Hf Hnd].
    destruct (Hall f) as [l Hl]; [by left|].
    destruct (close_delete_wf f s w l Hwf Hl)
      as (w1 & Hrun & Hwf1 & Hc1 & Hnone & Hoth & Hch & _).
    assert (Hall1 : forall f', f' ∈ fs -> is_Some (entry w1 f' s)).
    { intros f' Hf'. rewrite Hoth; [apply Hall; by right|].
      intros [<- _]. contradiction. }
    destruct (IH w1 Hwf1 Hnd Hall1)
      as (w' & Hrun' & Hwf' & Hc' & Hnone' & Hcl' & Hoth' & Hmono').
    assert (Hlt : l < length (chans w)).
    { destruct Hwf as [_ (h & Hu & Hcore)]. unfold entry in Hl. rewrite Hu in Hl.
      eapply lookup_lt_Some, (wf_open _ _ Hcore _ _ _ Hl). }
    exists w'. simpl. unfold bind. rewrite Hrun, Hrun'.
    split; [reflexivity|]. split; [exact Hwf'|]. split; [congruence|].
    split; [|split; [|split]].
    + intros f' [->|Hf']%elem_of_cons; [|auto].
      rewrite Hoth'; [done|]. intros [? _]. contradiction.
    + intros f' l' [->|Hf']%elem_of_cons Hl'.
      * assert (l' = l) as -> by congruence.
        apply Hmono'. rewrite Hch. by apply list_lookup_insert_eq.
      * apply (Hcl' f'); [done|]. rewrite Hoth; [done|].
        intros [<- _]. contradiction.
    + intros f' s' Hne. rewrite Hoth'.
      * apply Hoth. intros [<- <-]. apply Hne. split; [by left|done].
      * intros [Hf' ->]. apply Hne. split; [by right|done].
    + intros l0 Hl0. apply Hmono'. rewrite Hch. by apply closed_stays_closed.
Qed.

Lemma topic_feeds_NoDup (K : topic) : NoDup (topic_feeds K).
Proof. destruct K; compute_done. Qed.

(** The guard of ticker, trades and order-book turns a false
    acknowledgment into an error before any map is touched. *)
Lemma subscribe_rejected (K : topic) (symbol period : string) (w : World)
    (t t' : T) :
  K <> Candles ->
  conn w = Some t ->
  Call t (subscribe_method K) (topic_params K symbol period) = (CallOk false, t') ->
  subscribe K symbol period w =
    (Ret (replicate (length (topic_feeds K)) None,
          Some (ErrAnnotate rejected (subscribe_label K))),
     called (subscribe_method K) (topic_params K symbol period) t' w).
Proof.
  intros HK Hc Hcall. rewrite subscribe_uniform_eq. unfold subscribe_uniform, bind.
  rewrite (topic_op_call _ _ _ _ _ _ _ _ Hc Hcall). by destruct K.
Qed.

(** C1, what the code does for candles: [candlesSubscriptionOp] never
    reads the acknowledgment, so on a false acknowledgment
    [SubscribeCandles] returns no error, makes two channels and registers
    them under the symbol. *)
Theorem SubscribeCandles_ignores_rejection (symbol period : string) (w : World)
    (t t' : T) :
  is_Some (updates w) ->
  conn w = Some t ->
  Call t "subscribeCandles"
    (PCandles {| csub_Symbol := symbol; csub_Period := period |}) = (CallOk false, t') ->
  entry w FCandlesUpd symbol = None ->
  entry w FCandlesSnap symbol = None ->
  exists w',
    SubscribeCandles symbol period w =
      (Ret (Some (length (chans w)), Some (S (length (chans w))), None), w') /\
    entry w' FCandlesUpd symbol = Some (length (chans w)) /\
    entry w' FCandlesSnap symbol = Some (S (length (chans w))) /\
    chans w' = chans w ++ [Open; Open].
Proof.
  intros [h Hu] Hc Hcall. unfold entry. rewrite Hu. simpl. intros Hn1 Hn2.
  eexists. split.
  - unfold SubscribeCandles, candlesSubscriptionOp. run.
    repeat (first [rewrite Hc | rewrite Hcall | rewrite Hu | rewrite Hn1
                  | rewrite Hn2 | rewrite lookup_insert_eq
                  | rewrite length_app ]; simpl).
    replace (length (chans w) + 1) with (S (length (chans w))) by lia.
    reflexivity.
  - simpl. rewrite !lookup_insert_eq, <- app_assoc. auto.
Qed.

(** C2, what the code does: once the server has acknowledged the
    unsubscribe request, a symbol that has no channel makes the function
    call [close] on the nil channel the map lookup yields, which
    panics. *)
Theorem unsubscribe_never_subscribed_panics (K : topic) (symbol period : string)
    (w : World) (t t' : T) :
  is_Some (updates w) ->
  conn w = Some t ->
  Call t (unsubscribe_method K) (topic_params K symbol period) = (CallOk true, t') ->
  (forall f, f ∈ topic_feeds K -> entry w f symbol = None) ->
  unsubscribe K symbol period w =
    (Panic close_nil, called (unsubscribe_method K) (topic_params K symbol period) t' w).
Proof.
  intros Hu Hc Hcall Hnone. rewrite unsubscribe_uniform_eq.
  unfold unsubscribe_uniform, bind.
  rewrite (topic_op_call _ _ _ _ _ _ _ _ Hc Hcall).
  replace (guard_result K (CallOk true)) with (@None error) by (by destruct K).
  assert (Hhd : exists f fs, topic_feeds K = f :: fs) by (destruct K; by eexists _, _).
  destruct Hhd as (f & fs & Hfs). rewrite Hfs. simpl. unfold bind.
  rewrite close_delete_absent; [done|done|].
  rewrite entry_called. apply Hnone. rewrite Hfs. by left.
Qed.

(** An acknowledged unsubscribe of a registered symbol on a well-formed
    world. *)
Lemma unsubscribe_acknowledged_run (K : topic) (symbol period : string)
    (w : World) (t t' : T) :
  wf w ->
  conn w = Some t ->
  Call t (unsubscribe_method K) (topic_params K symbol period) = (CallOk true, t') ->
  (forall f, f ∈ topic_feeds K -> is_Some (entry w f symbol)) ->
  exists w',
    unsubscribe K symbol period w = (Ret None, w') /\
    (forall f, f ∈ topic_feeds K -> entry w' f symbol = None) /\
    (forall f l, f ∈ topic_feeds K -> entry w f symbol = Some l ->
                 chans w' !! l = Some Closed).
Proof.
  intros Hwf Hc Hcall Hreg.
  set (w1 := called (unsubscribe_method K) (topic_params K symbol period) t' w).
  destruct (close_delete_all_wf (topic_feeds K) symbol w1)
    as (w' & Hrun & _ & _ & Hnone & Hclosed & _);
    [by apply wf_called|apply topic_feeds_NoDup|exact Hreg|].
  exists w'. split; [|split; [exact Hnone|exact Hclosed]].
  rewrite unsubscribe_uniform_eq. unfold unsubscribe_uniform, bind.
  rewrite (topic_op_call _ _ _ _ _ _ _ _ Hc Hcall).
  replace (guard_result K (CallOk true)) with (@None error) by (by destruct K).
  fold w1. by rewrite Hrun.
Qed.

(** C4, as amended: on a well-formed world where the symbol is
    registered, an unsubscribe whose transport call returns the
    acknowledgment true closes the channel(s), deletes the key(s) and
    returns nil; for ticker, trades and order-book the acknowledgment
    false makes it return the "Subscribe not successful" error, annotated,
    with the registry and the channels untouched. *)
Theorem unsubscribe_acknowledged (K : topic) (symbol period : string) (w : World)
    (t t' : T) (b : bool) :
  wf w ->
  conn w = Some t ->
  Call t (unsubscribe_method K) (topic_params K symbol period) = (CallOk b, t') ->
  (forall f, f ∈ topic_feeds K -> is_Some (entry w f symbol)) ->
  (b = true ->
   exists w',
     unsubscribe K symbol period w = (Ret None, w') /\
     (forall f, f ∈ topic_feeds K -> entry w' f symbol = None) /\
     (forall f l, f ∈ topic_feeds K -> entry w f symbol = Some l ->
                  chans w' !! l = Some Closed)) /\
  (b = false -> K <> Candles ->
   unsubscribe K symbol period w =
     (Ret (Some (ErrAnnotate rejected (unsubscribe_label K))),
      called (unsubscribe_method K) (topic_params K symbol period) t' w)).
Proof.
  intros Hwf Hc Hcall Hreg. split.
  - intros ->. by apply (unsubscribe_acknowledged_run K symbol period w t t').
  - intros -> HK.
    rewrite unsubscribe_uniform_eq. unfold unsubscribe_uniform, bind.
    rewrite (topic_op_call _ _ _ _ _ _ _ _ Hc Hcall). by destruct K.
Qed.

(** An acknowledged subscribe on a well-formed world: it returns the
    channels the symbol is mapped to afterwards, one per map of the
    kind. *)
Lemma subscribe_acknowledged_run (K : topic) (symbol period : string) (w : World)
    (t t1 : T) :
  wf w ->
  conn w = Some t ->
  Call t (subscribe_method K) (topic_params K symbol period) = (CallOk true, t1) ->
  exists w1,
    subscribe K symbol period w =
      (Ret ((fun f => entry w1 f symbol) <$> topic_feeds K, None), w1) /\
    wf w1 /\ conn w1 = Some t1 /\
    (forall f, f ∈ topic_feeds K -> is_Some (entry w1 f symbol)).
Proof.
  intros Hwf Hc Hsub.
  set (w0 := called (subscribe_method K) (topic_params K symbol period) t1 w).
  destruct (ensure_all_wf (topic_feeds K) symbol w0)
    as (w1 & Hens & Hwf1 & Hc1 & Hreg & _); [by apply wf_called|].
  exists w1. split; [|done].
  rewrite subscribe_uniform_eq. unfold subscribe_uniform, bind.
  rewrite (topic_op_call _ _ _ _ _ _ _ _ Hc Hsub).
  replace (guard_result K (CallOk true)) with (@None error) by (by destruct K).
  fold w0. rewrite Hens. rewrite lookup_all_entry; [done|].
  destruct Hwf1 as [_ (h & -> & _)]. by eexists.
Qed.

(** An acknowledged subscribe for a symbol that is registered already:
    the registered channels are returned and only the transport call
    happens. *)
Lemma subscribe_registered_run (K : topic) (symbol period : string) (w : World)
    (t t1 : T) :
  is_Some (updates w) ->
  conn w = Some t ->
  Call t (subscribe_method K) (topic_params K symbol period) = (CallOk true, t1) ->
  (forall f, f ∈ topic_feeds K -> is_Some (entry w f symbol)) ->
  subscribe K symbol period w =
    (Ret ((fun f => entry w f symbol) <$> topic_feeds K, None),
     called (subscribe_method K) (topic_params K symbol period) t1 w).
Proof.
  intros Hu Hc Hsub Hreg.
  rewrite subscribe_uniform_eq. unfold subscribe_uniform, bind.
  rewrite (topic_op_call _ _ _ _ _ _ _ _ Hc Hsub).
  replace (guard_result K (CallOk true)) with (@None error) by (by destruct K).
  rewrite ensure_all_present by (intros f Hf; rewrite entry_called; auto).
  by rewrite lookup_all_entry.
Qed.

Lemma subscribe_Candles_inv (symbol period : string) (w w1 : World)
    (u s : option nat) (e : option error) :
  subscribe Candles symbol period w = (Ret ([u; s], e), w1) ->
  SubscribeCandles symbol period w = (Ret (u, s, e), w1).
Proof.
  unfold subscribe, bind, ret.
  destruct (SubscribeCandles symbol period w) as [[[[a b] e']| |] w'];
    simpl; intros; by simplify_eq.
Qed.

(** C5: on a well-formed world, a subscribe the server acknowledges
    followed at once by an unsubscribe the server acknowledges: both
    return without error, the subscribe returns one non-nil channel per
    map of the topic kind, afterwards no map of the kind has the symbol,
    and a receive on each returned channel yields the closed signal. *)
Theorem subscribe_then_unsubscribe_releases (K : topic) (symbol period : string)
    (w : World) (t t1 t2 : T) :
  wf w ->
  conn w = Some t ->
  Call t (subscribe_method K) (topic_params K symbol period) = (CallOk true, t1) ->
  Call t1 (unsubscribe_method K) (topic_params K symbol period) = (CallOk true, t2) ->
  exists chs w1 w2,
    subscribe K symbol period w = (Ret (chs, None), w1) /\
    length chs = length (topic_feeds K) /\
    unsubscribe K symbol period w1 = (Ret None, w2) /\
    (forall f, f ∈ topic_feeds K -> entry w2 f symbol = None) /\
    (forall c, c ∈ chs -> exists l, c = Some l /\ go_recv (chans w2) l = RecvClosed).
Proof.
  intros Hwf Hc Hsub Hunsub.
  destruct (subscribe_acknowledged_run K symbol period w t t1 Hwf Hc Hsub)
    as (w1 & Hrun1 & Hwf1 & Hc1 & Hreg).
  destruct (unsubscribe_acknowledged_run K symbol period w1 t1 t2 Hwf1 Hc1 Hunsub Hreg)
    as (w2 & Hrun2 & Hnone & Hclosed).
  exists ((fun f => entry w1 f symbol) <$> topic_feeds K), w1, w2.
  split; [done|]. split; [by rewrite length_fmap|]. split; [done|].
  split; [done|].
  intros c (f & -> & Hf)%list_elem_of_fmap.
  destruct (Hreg f Hf) as [l Hl]. exists l. split; [done|].
  unfold go_recv. by rewrite (Hclosed f l Hf Hl).
Qed.

(** C7, as amended: on a well-formed world, subscribing candles for a
    symbol and subscribing the same symbol again with another period
    returns the very same pair of channels the second time; the second
    call makes, closes and registers nothing (the world differs by the
    transport call only), so the registry holds one pair per symbol
    whatever the periods asked for. *)
Theorem SubscribeCandles_again_same_channels (symbol p1 p2 : string) (w : World)
    (t t1 t2 : T) :
  wf w ->
  conn w = Some t ->
  Call t "subscribeCandles"
    (PCandles {| csub_Symbol := symbol; csub_Period := p1 |}) = (CallOk true, t1) ->
  Call t1 "subscribeCandles"
    (PCandles {| csub_Symbol := symbol; csub_Period := p2 |}) = (CallOk true, t2) ->
  exists u s w1,
    SubscribeCandles symbol p1 w = (Ret (Some u, Some s, None), w1) /\
    SubscribeCandles symbol p2 w1 =
      (Ret (Some u, Some s, None),
       called "subscribeCandles"
         (PCandles {| csub_Symbol := symbol; csub_Period := p2 |}) t2 w1) /\
    entry w1 FCandlesUpd symbol = Some u /\
    entry w1 FCandlesSnap symbol = Some s.
Proof.
  intros Hwf Hc Hcall1 Hcall2.
  destruct (subscribe_acknowledged_run Candles symbol p1 w t t1 Hwf Hc Hcall1)
    as (w1 & Hrun1 & Hwf1 & Hc1 & Hreg).
  assert (Hup1 : is_Some (updates w1)).
  { destruct Hwf1 as [_ (h & -> & _)]. by eexists. }
  pose proof (subscribe_registered_run Candles symbol p2 w1 t1 t2 Hup1 Hc1 Hcall2 Hreg)
    as Hrun2.
  destruct (Hreg FCandlesUpd) as [u Hu]; [by left|].
  destruct (Hreg FCandlesSnap) as [s Hs]; [right; by left|].
  simpl in Hrun1, Hrun2. rewrite Hu, Hs in Hrun1, Hrun2.
  exists u, s, w1. split; [|split; [|done]].
  - by apply subscribe_Candles_inv.
  - by apply subscribe_Candles_inv.
Qed.

(** ** Shutdown *)

Lemma bind_assoc {A B C} (m : M A) (f : A -> M B) (g : B -> M C) (w : World) :
  bind (bind m f) g w = bind m (fun a => bind (f a) g) w.
Proof. unfold bind. by destruct (m w) as [[a| |] w']. Qed.

Lemma length_mark_closed (l : list nat) (cs : list chan_state) :
  length (mark_closed l cs) = length cs.
Proof.
  revert cs. induction l as [|c l IH]; intros cs; [done|].
  simpl. by rewrite IH, length_insert.
Qed.

Lemma mark_closed_notin (l : list nat) (cs : list chan_state) (c : nat) :
  c ∉ l -> mark_closed l cs !! c = cs !! c.
Proof.
  revert cs. induction l as [|c' l IH]; intros cs Hc; [done|].
  apply not_elem_of_cons in Hc as [Hne Hc]. simpl.
  rewrite IH by done. by rewrite list_lookup_insert_ne.
Qed.

Lemma mark_closed_in (l : list nat) (cs : list chan_state) (c : nat) :
  c ∈ l -> c < length cs -> mark_closed l cs !! c = Some Closed.
Proof.
  revert cs. induction l as [|c' l IH]; intros cs Hc Hlt.
  - by apply elem_of_nil in Hc.
  - simpl. destruct (decide (c ∈ l)) as [Hin|Hnin].
    + apply IH; [done|]. by rewrite length_insert.
    + apply elem_of_cons in Hc as [->|Hc]; [|done].
      rewrite mark_closed_notin by done. by apply list_lookup_insert_eq.
Qed.

Lemma mark_closed_app (l1 l2 : list nat) (cs : list chan_state) :
  mark_closed (l1 ++ l2) cs = mark_closed l2 (mark_closed l1 cs).
Proof. revert cs. induction l1 as [|c l1 IH]; intros cs; [done|]. simpl. apply IH. Qed.

(** Closing distinct open channels one after the other succeeds. *)
Lemma close_each_run (l : list nat) (w : World) :
  NoDup l ->
  (forall c, c ∈ l -> chans w !! c = Some Open) ->
  close_each l w =
    (Ret tt,
     mkWorld (conn w) (updates w) (mark_closed l (chans w))
       (trace w ++ (EvClose <$> l))).
Proof.
  revert w. induction l as [|c l IH]; intros w Hnd Hopen.
  - simpl. rewrite app_nil_r. by destruct w.
  - apply NoDup_cons in Hnd as [Hc Hnd]. simpl. run.
    rewrite (Hopen c) by (by left). simpl.
    rewrite IH; [|done|].
    + simpl. by rewrite <- app_assoc.
    + intros c' Hc'. simpl. rewrite list_lookup_insert_ne by (by intros ->).
      apply Hopen. by right.
Qed.

Lemma close_each_updates (l : list nat) (w : World) :
  updates (close_each l w).2 = updates w.
Proof.
  revert w. induction l as [|c l IH]; intros w; [done|].
  simpl. unfold bind, go_close.
  destruct (chans w !! c) as [[]|]; try done.
  by rewrite IH.
Qed.

Lemma close_each_app (l1 l2 : list nat) (w : World) :
  close_each (l1 ++ l2) w = (close_each l1 ;; close_each l2) w.
Proof.
  revert w. induction l1 as [|c l1 IH]; intros w; [done|].
  simpl. unfold bind.
  destruct (go_close (Some c) w) as [[[]| |] w']; [|done|done].
  by rewrite IH.
Qed.

(** The seven loops of [Close] are one pass over [chans_of]. *)
Lemma range_close_all_eq (fs : list feed) (w : World) (h : responseChannels) :
  updates w = Some h ->
  range_close_all fs w = close_each (chans_of fs h) w.
Proof.
  revert w. induction fs as [|f fs IH]; intros w Hu; [done|].
  unfold chans_of. simpl. rewrite close_each_app. unfold bind.
  replace (range_close f w) with (close_each (feed_chans f h) w)
    by (unfold range_close; run; by rewrite Hu).
  pose proof (close_each_updates (feed_chans f h) w) as Hupd.
  destruct (close_each (feed_chans f h) w) as [[[]| |] w']; [|done|done].
  apply IH. simpl in Hupd. congruence.
Qed.

Lemma Close_unfold (w : World) :
  Close w =
    (conn_Close ;;
     range_close_all close_order ;;
     h <- get_updates ;;
     go_close (Some (ErrorFeed h)) ;;
     feed_reset FTicker ;;
     feed_reset FTradesUpd ;;
     feed_reset FOrderbookUpd ;;
     feed_reset FCandlesUpd ;;
     feed_reset FCandlesSnap ;;
     feed_reset FTradesSnap ;;
     feed_reset FOrderbookSnap ;;
     c <- go_make ;;
     h' <- get_updates ;;
     put_updates (set_ErrorFeed c h')) w.
Proof.
  unfold Close, close_order, range_close_all, bind, ret.
  destruct (conn_Close w) as [[[]| |] w0]; [|done|done].
  repeat match goal with
         | |- context [range_close ?f ?w1] =>
             destruct (range_close f w1) as [[[]| |] ?]; [|done|done]
         end.
  done.
Qed.

Lemma elem_of_feed_chans (f : feed) (h : responseChannels) (c : nat) :
  c ∈ feed_chans f h <-> exists s, feed_get f h !! s = Some c.
Proof.
  unfold feed_chans. rewrite list_elem_of_fmap. split.
  - intros ([s c'] & -> & Hin). exists s. by apply elem_of_map_to_list.
  - intros (s & Hs). exists (s, c). split; [done|]. by apply elem_of_map_to_list.
Qed.

Lemma elem_of_chans_of (fs : list feed) (h : responseChannels) (c : nat) :
  c ∈ chans_of fs h <-> exists f s, f ∈ fs /\ feed_get f h !! s = Some c.
Proof.
  unfold chans_of. induction fs as [|f fs IH]; simpl.
  - rewrite elem_of_nil. split; [done|]. intros (f & s & Hf & _).
    by apply elem_of_nil in Hf.
  - rewrite elem_of_app, IH, elem_of_feed_chans. split.
    + intros [(s & Hs)|(f' & s & Hf' & Hs)].
      * exists f, s. split; [by left|done].
      * exists f', s. split; [by right|done].
    + intros (f' & s & [->|Hf']%elem_of_cons & Hs); [left|right]; eauto.
Qed.

Lemma feed_chans_NoDup (f : feed) (h : responseChannels) (cs : list chan_state) :
  wf_core h cs -> NoDup (feed_chans f h).
Proof.
  intros Hcore. unfold feed_chans.
  apply NoDup_fmap_2_strong; [|apply NoDup_map_to_list].
  intros [s1 c1] [s2 c2] H1%elem_of_map_to_list H2%elem_of_map_to_list Heq.
  simpl in Heq. subst c2.
  destruct (wf_inj _ _ Hcore _ _ _ _ _ H1 H2) as [_ ->]. done.
Qed.

Lemma chans_of_NoDup (fs : list feed) (h : responseChannels) (cs : list chan_state) :
  wf_core h cs -> NoDup fs -> NoDup (chans_of fs h).
Proof.
  intros Hcore. induction fs as [|f fs IH]; intros Hnd.
  - constructor.
  - apply NoDup_cons in Hnd as [Hf Hnd].
    change (chans_of (f :: fs) h) with (feed_chans f h ++ chans_of fs h).
    apply NoDup_app. split; [by eapply feed_chans_NoDup|split; [|auto]].
    intros c (s & Hs)%elem_of_feed_chans (f' & s' & Hf' & Hs')%elem_of_chans_of.
    destruct (wf_inj _ _ Hcore _ _ _ _ _ Hs Hs') as [<- _]. contradiction.
Qed.

Lemma close_order_NoDup : NoDup close_order.
Proof. compute_done. Qed.

Lemma elem_of_close_order (f : feed) : f ∈ close_order.
Proof. destruct f; compute_done. Qed.

Lemma elem_of_registered_chans (h : responseChannels) (c : nat) :
  c ∈ registered_chans h <-> exists f s, feed_get f h !! s = Some c.
Proof.
  unfold registered_chans. rewrite elem_of_chans_of. split.
  - intros (f & s & _ & Hs). eauto.
  - intros (f & s & Hs). exists f, s. split; [apply elem_of_close_order|done].
Qed.

(** The world [Close] leaves on a well-formed world. *)
Lemma Close_run (w : World) (t : T) (h : responseChannels) :
  conn w = Some t -> updates w = Some h -> wf_core h (chans w) ->
  Close w =
    (Ret tt,
     mkWorld (Some (ConnClose t)) (Some (fresh_registry (length (chans w))))
       (mark_closed (registered_chans h ++ [ErrorFeed h]) (chans w) ++ [Open])
       (trace w ++ EvConnClose :: (EvClose <$> registered_chans h) ++
          [EvClose (ErrorFeed h); EvMake (length (chans w))])).
Proof.
  intros Hc Hu Hcore.
  assert (Herr : ErrorFeed h ∉ registered_chans h).
  { intros (f & s & Hs)%elem_of_registered_chans.
    by apply (wf_err_apart _ _ Hcore) in Hs. }
  rewrite Close_unfold. unfold bind at 1. unfold conn_Close. rewrite Hc.
  unfold bind at 1. rewrite (range_close_all_eq _ _ h) by done.
  rewrite close_each_run.
  - simpl. run. rewrite Hu. simpl.
    rewrite (mark_closed_notin _ _ _ Herr), (wf_err_open _ _ Hcore). simpl.
    unfold registered_chans. rewrite mark_closed_app. simpl.
    rewrite length_insert, length_mark_closed.
    unfold set_ErrorFeed, fresh_registry, empty_notifications. simpl.
    rewrite <- !app_assoc. reflexivity.
  - apply (chans_of_NoDup _ _ _ Hcore), close_order_NoDup.
  - intros c (f & s & Hs)%elem_of_registered_chans. simpl.
    apply (wf_open _ _ Hcore _ _ _ Hs).
Qed.

(** C6: on a well-formed world a call of [Close] does not panic.  Its
    effects are, in this order: the connection is closed; every channel
    held by the seven maps is closed, each once; the error feed is closed
    after all of them; a new error feed is made.  Afterwards every channel
    that was registered is closed, the old error feed is closed, the seven
    maps are empty and the error feed is a fresh open channel. *)
Theorem Close_closes_everything (w : World) (t : T) (h : responseChannels) :
  conn w = Some t -> updates w = Some h -> wf_core h (chans w) ->
  exists w',
    Close w = (Ret tt, w') /\
    trace w' = trace w ++ EvConnClose :: (EvClose <$> registered_chans h) ++
                 [EvClose (ErrorFeed h); EvMake (length (chans w))] /\
    NoDup (registered_chans h ++ [ErrorFeed h]) /\
    (forall f s c, feed_get f h !! s = Some c ->
       c ∈ registered_chans h /\ chans w' !! c = Some Closed) /\
    chans w' !! ErrorFeed h = Some Closed /\
    conn w' = Some (ConnClose t) /\
    updates w' = Some (fresh_registry (length (chans w))) /\
    (forall f, feed_get f (fresh_registry (length (chans w))) = ∅) /\
    chans w' !! length (chans w) = Some Open /\
    wf w'.
Proof.
  intros Hc Hu Hcore.
  assert (Herr : ErrorFeed h ∉ registered_chans h).
  { intros (f & s & Hs)%elem_of_registered_chans.
    by apply (wf_err_apart _ _ Hcore) in Hs. }
  assert (Hlt : forall c, c ∈ registered_chans h ++ [ErrorFeed h] ->
                          c < length (chans w)).
  { intros c [(f & s & Hs)%elem_of_registered_chans | ->%list_elem_of_singleton]%elem_of_app.
    - eapply lookup_lt_Some, (wf_open _ _ Hcore _ _ _ Hs).
    - eapply lookup_lt_Some, (wf_err_open _ _ Hcore). }
  assert (Hclosed : forall c, c ∈ registered_chans h ++ [ErrorFeed h] ->
            (mark_closed (registered_chans h ++ [ErrorFeed h]) (chans w) ++ [Open])
              !! c = Some Closed).
  { intros c Hin. rewrite lookup_app_l by (rewrite length_mark_closed; auto).
    apply mark_closed_in; auto. }
  assert (Hfresh : (mark_closed (registered_chans h ++ [ErrorFeed h]) (chans w)
                      ++ [Open]) !! length (chans w) = Some Open).
  { rewrite lookup_app_r by (by rewrite length_mark_closed).
    rewrite length_mark_closed. by replace (_ - _) with 0 by lia. }
  eexists. split; [by apply Close_run|]. simpl.
  split; [done|]. split.
  { apply NoDup_app. split; [|split].
    - apply (chans_of_NoDup _ _ _ Hcore), close_order_NoDup.
    - intros c Hin ->%list_elem_of_singleton. contradiction.
    - apply NoDup_singleton. }
  split.
  { intros f s c Hs.
    assert (Hin : c ∈ registered_chans h) by (apply elem_of_registered_chans; eauto).
    split; [done|]. apply Hclosed, elem_of_app. by left. }
  split.
  { apply Hclosed, elem_of_app. right. by apply list_elem_of_singleton. }
  split; [done|]. split; [done|]. split; [by intros []|]. split; [done|].
  split; [by eexists|]. eexists. split; [reflexivity|]. simpl.
  rewrite <- (length_mark_closed (registered_chans h ++ [ErrorFeed h]) (chans w)).
  apply wf_core_fresh.
Qed.

(** C9, what the code does: for a recognized method whose payload does
    not decode, [Handle] reaches the send on the error feed and sends on
    no subscriber channel.  The feed is open and unbuffered and nobody can
    receive from it, so the send does not complete: the handler goroutine
    stays parked at it, the error is handed to no one, and the world is
    as it was.  A later [Close] returns, having closed the feed under the
    parked send, which panics the handler. *)
Theorem Handle_decode_error_parks (req : Request) (message : RawMessage)
    (err : error) (w : World) (t : T) (h : responseChannels) :
  Params req = Some message ->
  decode (Method req) message = Some (inl err) ->
  conn w = Some t ->
  updates w = Some h ->
  wf_core h (chans w) ->
  Handle req w = (Blocked, w) /\
  parked_sender (chans w) (ErrorFeed h) = Blocked /\
  exists w1,
    Close w = (Ret tt, w1) /\
    parked_sender (chans w1) (ErrorFeed h) = Panic send_closed.
Proof.
  intros Hp Hd Hc Hu Hcore. split; [|split].
  - rewrite Handle_decode, Hp, Hd. run. rewrite Hu. simpl.
    by rewrite (wf_err_open _ _ Hcore).
  - unfold parked_sender. by rewrite (wf_err_open _ _ Hcore).
  - eexists. split; [by apply Close_run|]. unfold parked_sender. simpl.
    rewrite lookup_app_l.
    + rewrite mark_closed_in; [done| |].
      * apply elem_of_app. right. by apply list_elem_of_singleton.
      * eapply lookup_lt_Some, (wf_err_open _ _ Hcore).
    + rewrite length_mark_closed. eapply lookup_lt_Some, (wf_err_open _ _ Hcore).
Qed.

(** ** Every reachable world is well formed *)

Lemma preserves_ret {A} (a : A) : preserves (ret a).
Proof. by intros w Hwf. Qed.

Lemma preserves_bind {A B} (m : M A) (k : A -> M B) :
  preserves m -> (forall a, preserves (k a)) -> preserves (bind m k).
Proof.
  intros Hm Hk w Hwf. specialize (Hm w Hwf). unfold bind.
  destruct (m w) as [[a| |] w']; [by apply Hk|done|done].
Qed.

Lemma preserves_get_conn : preserves get_conn.
Proof. by intros w Hwf. Qed.

Lemma preserves_get_updates : preserves get_updates.
Proof. intros w Hwf. unfold get_updates. by destruct (updates w). Qed.

Lemma preserves_feed_lookup (f : feed) (s : string) : preserves (feed_lookup f s).
Proof.
  apply preserves_bind; [apply preserves_get_updates|intros h; apply preserves_ret].
Qed.

Lemma preserves_conn_Call (op : string) (p : params) : preserves (conn_Call op p).
Proof.
  intros w [[t Hc] Hh]. unfold conn_Call. rewrite Hc.
  destruct (Call t op p) as [r t']. split; [by eexists|exact Hh].
Qed.

Lemma preserves_go_send (r : holder) (c : option nat) (v : value) :
  preserves (go_send r c v).
Proof.
  intros w Hwf. unfold go_send. destruct c as [l|]; [|done].
  destruct r, (chans w !! l) as [[]|]; done.
Qed.

Lemma preserves_ensure (f : feed) (s : string) : preserves (ensure f s).
Proof.
  intros w Hwf. destruct (ensure_wf f s w Hwf) as (w' & l & -> & Hwf' & _). done.
Qed.

Lemma preserves_close_delete (f : feed) (s : string) : preserves (close_delete f s).
Proof.
  intros w Hwf. destruct (entry w f s) as [l|] eqn:Hl.
  - destruct (close_delete_wf f s w l Hwf Hl) as (w' & -> & Hwf' & _). done.
  - rewrite close_delete_absent; [done| |done].
    destruct Hwf as [_ (h & -> & _)]. by eexists.
Qed.

Lemma preserves_subscriptionOp (op s : string) : preserves (subscriptionOp op s).
Proof.
  apply preserves_bind; [apply preserves_get_conn|]. intros [t|]; [|apply preserves_ret].
  apply preserves_bind; [apply preserves_conn_Call|].
  intros [e|[]]; apply preserves_ret.
Qed.

Lemma preserves_candlesSubscriptionOp (op s p : string) :
  preserves (candlesSubscriptionOp op s p).
Proof.
  apply preserves_bind; [apply preserves_conn_Call|].
  intros [e|b]; apply preserves_ret.
Qed.

Lemma wf_fresh_registry (c : option T) (cs : list chan_state) (tr : list event) :
  is_Some c ->
  wf (mkWorld c (Some (fresh_registry (length cs))) (cs ++ [Open]) tr).
Proof.
  intros Hc. split; [done|]. eexists. split; [reflexivity|]. apply wf_core_fresh.
Qed.

Lemma preserves_Close : preserves Close.
Proof.
  intros w Hwf. pose proof Hwf as [[t Hc] (h & Hu & Hcore)].
  rewrite (Close_run w t h Hc Hu Hcore). simpl.
  rewrite <- (length_mark_closed (registered_chans h ++ [ErrorFeed h]) (chans w)).
  by apply wf_fresh_registry.
Qed.

Lemma preserves_forward {A} (dec : error + A) (f : feed) (symbol_of : A -> string)
    (inj : A -> value) :
  preserves (forward dec f symbol_of inj).
Proof.
  apply preserves_bind; [apply preserves_get_updates|]. intros h.
  destruct dec; apply preserves_go_send.
Qed.

Lemma preserves_Handle (req : Request) : preserves (Handle req).
Proof.
  unfold Handle. destruct (Params req) as [message|]; [|apply preserves_ret].
  simpl. repeat (case_match; [apply preserves_forward|]). apply preserves_ret.
Qed.

Ltac preserves_tac :=
  repeat first
    [ apply preserves_ret
    | apply preserves_subscriptionOp
    | apply preserves_candlesSubscriptionOp
    | apply preserves_ensure
    | apply preserves_close_delete
    | apply preserves_feed_lookup
    | apply preserves_bind
    | match goal with
      | |- forall _ : option _, _ => intros [?|]
      | |- forall _, preserves _ => intros ?
      end ].

Lemma preserves_subscribe (K : topic) (s p : string) : preserves (subscribe K s p).
Proof.
  destruct K; unfold subscribe, SubscribeTicker, SubscribeTrades,
    SubscribeOrderbook, SubscribeCandles; preserves_tac.
Qed.

Lemma preserves_unsubscribe (K : topic) (s p : string) :
  preserves (unsubscribe K s p).
Proof.
  destruct K; unfold unsubscribe, UnsubscribeTicker, UnsubscribeTrades,
    UnsubscribeOrderbook, UnsubscribeCandles; preserves_tac.
Qed.

Lemma step_wf (w w' : World) : wf w -> step w w' -> wf w'.
Proof.
  intros Hwf Hstep. destruct Hstep;
    first [ by apply preserves_Handle
          | by apply preserves_Close
          | by apply (preserves_unsubscribe Ticker _ "")
          | by apply (preserves_unsubscribe Trades _ "")
          | by apply (preserves_unsubscribe Orderbook _ "")
          | by apply (preserves_unsubscribe Candles)
          | idtac ].
  all: unfold SubscribeTicker, SubscribeTrades, SubscribeOrderbook, SubscribeCandles.
  all: revert Hwf; match goal with |- wf ?w -> wf (?m ?w).2 => revert w; change (preserves m) end.
  all: preserves_tac.
Qed.

(** The invariant the statements below assume holds in every world a
    client can get into. *)
Lemma reachable_wf (w : World) : reachable w -> wf w.
Proof.
  induction 1 as [c|w w' _ IH Hstep]; [apply new_client_wf|by eapply step_wf].
Qed.

(** * Further properties of the router *)

(** ** Delivery *)

(** X1: a decoded notification whose symbol is registered in the map of
    its method is offered on the channel registered there and on no
    other: that channel is not the error feed and is registered under
    that one key only.  Nothing else happens. *)
Theorem Handle_delivers_registered (req : Request) (message : RawMessage)
    (f : feed) (symbol : string) (v : value) (w : World) (h : responseChannels)
    (l : nat) :
  Params req = Some message ->
  decode (Method req) message = Some (inr (f, symbol, v)) ->
  updates w = Some h ->
  wf_core h (chans w) ->
  feed_get f h !! symbol = Some l ->
  Handle req w = (Ret tt, emit (EvSend l v) w) /\
  l <> ErrorFeed h /\
  (forall f' s', feed_get f' h !! s' = Some l -> f' = f /\ s' = symbol).
Proof.
  intros Hp Hd Hu Hcore Hl. split; [|split].
  - rewrite Handle_decode, Hp, Hd. run. rewrite Hu. simpl. rewrite Hl.
    rewrite (wf_open _ _ Hcore _ _ _ Hl). by rewrite Hu.
  - intros ->. by apply (wf_err_apart _ _ Hcore) in Hl.
  - intros f' s' Hl'. apply (wf_inj _ _ Hcore _ _ _ _ _ Hl' Hl).
Qed.

(** X3: whatever the request and the world, [Handle] leaves the
    connection, the seven maps, the error feed and every channel's state
    as they were; the only effect it can have is one send. *)
Theorem Handle_touches_nothing (req : Request) (w : World) :
  conn (Handle req w).2 = conn w /\
  updates (Handle req w).2 = updates w /\
  chans (Handle req w).2 = chans w /\
  (trace (Handle req w).2 = trace w \/
   exists l v, trace (Handle req w).2 = trace w ++ [EvSend l v]).
Proof.
  rewrite Handle_decode.
  destruct (Params req) as [message|]; [|by auto].
  destruct (decode (Method req) message) as [[err|[[f symbol] v]]|]; [| |by auto].
  - run. destruct (updates w) as [h|] eqn:Hu; [|by auto]. simpl.
    destruct (chans w !! ErrorFeed h) as [[]|]; simpl; eauto 10.
  - run. destruct (updates w) as [h|] eqn:Hu; [|by auto]. simpl.
    destruct (feed_get f h !! symbol) as [l|]; [|by auto].
    destruct (chans w !! l) as [[]|]; simpl; eauto 10.
Qed.

(** ** What a subscribe and an unsubscribe leave alone *)

Lemma ensure_frame (f : feed) (s : string) (w : World) :
  wf w ->
  exists w' k,
    ensure f s w = (Ret tt, w') /\ wf w' /\ conn w' = conn w /\
    is_Some (entry w' f s) /\
    same_elsewhere [f] s w w' /\
    (forall f' s' l', entry w f' s' = Some l' -> entry w' f' s' = Some l') /\
    chans w' = chans w ++ replicate k Open /\
    trace w' = trace w ++ (EvMake <$> seq (length (chans w)) k) /\
    (entry w f s = None -> entry w' f s = Some (length (chans w))).
Proof.
  intros Hwf. pose proof Hwf as [Hc (h & Hu & Hcore)].
  destruct (feed_get f h !! s) as [l|] eqn:Hl.
  - assert (He : entry w f s = Some l) by (unfold entry; by rewrite Hu).
    exists w, 0. rewrite (ensure_present f s w l He). simpl. rewrite !app_nil_r.
    split; [done|]. split; [done|]. split; [done|]. split; [by eexists|].
    split; [by intros f' s' _|]. split; [done|]. split; [done|]. split; [done|].
    by rewrite He.
  - eexists _, 1. rewrite (ensure_absent f s w h Hu Hl).
    split; [reflexivity|]. split.
    { split; [exact Hc|]. eexists. split; [reflexivity|]. by apply wf_core_alloc. }
    split; [reflexivity|]. unfold same_elsewhere, entry. simpl. rewrite Hu.
    split; [|split; [|split; [|split; [done|split; [done|]]]]].
    + rewrite lookup_feed_insert, decide_True by done. by eexists.
    + intros f' s' Hne. rewrite lookup_feed_insert, decide_False; [done|].
      intros [<- <-]. apply Hne. split; [by left|done].
    + intros f' s' l' Hl'. rewrite lookup_feed_insert, decide_False; [done|].
      intros [<- <-]. congruence.
    + intros _. by rewrite lookup_feed_insert, decide_True.
Qed.

Lemma ensure_all_frame (fs : list feed) (s : string) (w : World) :
  wf w ->
  exists w' k,
    ensure_all fs s w = (Ret tt, w') /\ wf w' /\ conn w' = conn w /\
    (forall f, f ∈ fs -> is_Some (entry w' f s)) /\
    same_elsewhere fs s w w' /\
    (forall f' s' l', entry w f' s' = Some l' -> entry w' f' s' = Some l') /\
    chans w' = chans w ++ replicate k Open /\
    trace w' = trace w ++ (EvMake <$> seq (length (chans w)) k) /\
    (forall f, f ∈ fs -> entry w f s = None ->
       exists l, entry w' f s = Some l /\ length (chans w) <= l).
Proof.
  revert w. induction fs as [|f fs IH]; intros w Hwf.
  - exists w, 0. simpl. rewrite !app_nil_r.
    split; [done|]. split; [done|]. split; [done|].
    split; [by intros f ?%elem_of_nil|]. split; [by intros f' s' _|].
    split; [done|]. split; [done|]. split; [done|]. by intros f ?%elem_of_nil.
  - destruct (ensure_frame f s w Hwf)
      as (w1 & k1 & Hrun1 & Hwf1 & Hc1 & Hreg1 & Hfr1 & Hkeep1 & Hch1 & Htr1 & Hnew1).
    destruct (IH w1 Hwf1)
      as (w' & k2 & Hrun2 & Hwf' & Hc' & Hreg' & Hfr' & Hkeep' & Hch' & Htr' & Hnew').
    exists w', (k1 + k2). simpl. unfold bind. rewrite Hrun1, Hrun2.
    assert (Hlen : length (chans w1) = length (chans w) + k1).
    { by rewrite Hch1, length_app, length_replicate. }
    split; [done|]. split; [done|]. split; [congruence|].
    split; [|split; [|split; [|split; [|split]]]].
    + intros f' [->|Hf']%elem_of_cons; [|auto].
      destruct Hreg1 as [l Hl]. rewrite (Hkeep' _ _ _ Hl). by eexists.
    + intros f' s' Hne. rewrite Hfr'.
      * apply Hfr1. intros [->%list_elem_of_singleton ->]. apply Hne.
        split; [by left|done].
      * intros [Hf' ->]. apply Hne. split; [by right|done].
    + eauto.
    + rewrite Hch', Hch1, <- app_assoc. by rewrite replicate_add.
    + rewrite Htr', Htr1, Hlen, <- app_assoc, <- fmap_app. by rewrite seq_app.
    + intros f' Hf' Hnone. destruct (decide (f' = f)) as [->|Hne].
      * exists (length (chans w)). split; [|done].
        apply Hkeep', Hnew1, Hnone.
      * apply elem_of_cons in Hf' as [->|Hf']; [done|].
        destruct (Hnew' f' Hf') as (l & Hl & Hge).
        { rewrite Hfr1; [done|]. intros [->%list_elem_of_singleton _]. done. }
        exists l. split; [done|]. lia.
Qed.

(** The two ways a subscribe ends on a well-formed world whose connection
    answers [r]: the guard's error, annotated, with nothing touched; or
    the channels of the symbol, with the maps of the kind completed. *)
Lemma subscribe_cases (K : topic) (symbol period : string) (w : World) (t t' : T)
    (r : call_result) :
  wf w ->
  conn w = Some t ->
  Call t (subscribe_method K) (topic_params K symbol period) = (r, t') ->
  let w0 := called (subscribe_method K) (topic_params K symbol period) t' w in
  match guard_result K r with
  | Some e =>
      subscribe K symbol period w =
        (Ret (replicate (length (topic_feeds K)) None,
              Some (ErrAnnotate e (subscribe_label K))), w0)
  | None =>
      exists w1 k,
        subscribe K symbol period w =
          (Ret ((fun f => entry w1 f symbol) <$> topic_feeds K, None), w1) /\
        wf w1 /\ conn w1 = Some t' /\
        (forall f, f ∈ topic_feeds K -> is_Some (entry w1 f symbol)) /\
        same_elsewhere (topic_feeds K) symbol w w1 /\
        (forall f' s' l', entry w f' s' = Some l' -> entry w1 f' s' = Some l') /\
        chans w1 = chans w ++ replicate k Open /\
        trace w1 = trace w0 ++ (EvMake <$> seq (length (chans w)) k) /\
        (forall f, f ∈ topic_feeds K -> entry w f symbol = None ->
           exists l, entry w1 f symbol = Some l /\ length (chans w) <= l)
  end.
Proof.
  intros Hwf Hc Hcall w0.
  pose proof (subscribe_uniform_eq K symbol period w) as Heq.
  unfold subscribe_uniform, bind in Heq.
  rewrite (topic_op_call _ _ _ _ _ _ _ _ Hc Hcall) in Heq. fold w0 in Heq.
  destruct (guard_result K r) as [e|]; [exact Heq|].
  destruct (ensure_all_frame (topic_feeds K) symbol w0)
    as (w1 & k & Hens & Hwf1 & Hc1 & Hreg & Hfr & Hkeep & Hch & Htr & Hnew);
    [by apply wf_called|].
  exists w1, k. rewrite Heq, Hens. rewrite lookup_all_entry.
  - split; [done|]. split; [done|]. by repeat split.
  - destruct Hwf1 as [_ (h & -> & _)]. by eexists.
Qed.

Lemma close_delete_all_frame (fs : list feed) (s : string) (w : World) :
  wf w -> NoDup fs ->
  (forall f, f ∈ fs -> is_Some (entry w f s)) ->
  exists w' ls,
    close_delete_all fs s w = (Ret tt, w') /\ wf w' /\ conn w' = conn w /\
    (forall f, f ∈ fs -> entry w' f s = None) /\
    same_elsewhere fs s w w' /\
    (fun f => entry w f s) <$> fs = Some <$> ls /\
    chans w' = mark_closed ls (chans w) /\
    trace w' = trace w ++ (EvClose <$> ls).
Proof.
  revert w. induction fs as [|f fs IH]; intros w Hwf Hnd Hall.
  - exists w, []. simpl. rewrite app_nil_r.
    split; [done|]. split; [done|]. split; [done|].
    split; [by intros f ?%elem_of_nil|]. split; [by intros f' s' _|]. done.
  - apply NoDup_cons in Hnd as [Hf Hnd].
    destruct (Hall f) as [l Hl]; [by left|].
    destruct (close_delete_wf f s w l Hwf Hl)
      as (w1 & Hrun & Hwf1 & Hc1 & Hnone & Hoth & Hch & Htr).
    assert (Hsame : forall f', f' ∈ fs -> entry w1 f' s = entry w f' s).
    { intros f' Hf'. apply Hoth. intros [<- _]. contradiction. }
    destruct (IH w1 Hwf1 Hnd)
      as (w' & ls & Hrun' & Hwf' & Hc' & Hnone' & Hfr' & Hls & Hch' & Htr').
    { intros f' Hf'. rewrite Hsame by done. apply Hall. by right. }
    exists w', (l :: ls). cbn [close_delete_all]. unfold bind. rewrite Hrun, Hrun'.
    split; [done|]. split; [done|]. split; [congruence|].
    split; [|split; [|split; [|split]]].
    + intros f' [->|Hf']%elem_of_cons; [|auto].
      rewrite Hfr'; [done|]. intros [? _]. contradiction.
    + intros f' s' Hne. rewrite Hfr'.
      * apply Hoth. intros [<- <-]. apply Hne. split; [by left|done].
      * intros [Hf' ->]. apply Hne. split; [by right|done].
    + rewrite !fmap_cons, Hl. f_equal. rewrite <- Hls.
      apply Forall_fmap_ext, Forall_forall. intros f' Hf'. by rewrite Hsame.
    + cbn [mark_closed]. by rewrite Hch', Hch.
    + by rewrite Htr', Htr, fmap_cons, <- app_assoc.
Qed.

(** The three ways an unsubscribe ends on a well-formed world whose
    connection answers [r]. *)
Lemma unsubscribe_cases (K : topic) (symbol period : string) (w : World)
    (t t' : T) (r : call_result) :
  wf w ->
  conn w = Some t ->
  Call t (unsubscribe_method K) (topic_params K symbol period) = (r, t') ->
  let w0 := called (unsubscribe_method K) (topic_params K symbol period) t' w in
  match guard_result K r with
  | Some e =>
      unsubscribe K symbol period w =
        (Ret (Some (ErrAnnotate e (unsubscribe_label K))), w0)
  | None =>
      ((forall f, f ∈ topic_feeds K -> is_Some (entry w f symbol)) ->
       exists w' ls,
         unsubscribe K symbol period w = (Ret None, w') /\
         wf w' /\ conn w' = Some t' /\
         (forall f, f ∈ topic_feeds K -> entry w' f symbol = None) /\
         same_elsewhere (topic_feeds K) symbol w w' /\
         (fun f => entry w f symbol) <$> topic_feeds K = Some <$> ls /\
         chans w' = mark_closed ls (chans w) /\
         trace w' = trace w0 ++ (EvClose <$> ls)) /\
      ((forall f, f ∈ topic_feeds K -> entry w f symbol = None) ->
       unsubscribe K symbol period w = (Panic close_nil, w0))
  end.
Proof.
  intros Hwf Hc Hcall w0.
  pose proof (unsubscribe_uniform_eq K symbol period w) as Heq.
  unfold unsubscribe_uniform, bind in Heq.
  rewrite (topic_op_call _ _ _ _ _ _ _ _ Hc Hcall) in Heq. fold w0 in Heq.
  destruct (guard_result K r) as [e|]; [exact Heq|]. split.
  - intros Hreg.
    destruct (close_delete_all_frame (topic_feeds K) symbol w0)
      as (w' & ls & Hrun & Hwf' & Hc' & Hnone & Hfr & Hls & Hch & Htr);
      [by apply wf_called|apply topic_feeds_NoDup|exact Hreg|].
    exists w', ls. rewrite Heq, Hrun.
    split; [done|]. split; [done|]. split; [exact Hc'|]. by repeat split.
  - intros Hnone. rewrite Heq.
    assert (Hhd : exists f fs, topic_feeds K = f :: fs)
      by (destruct K; by eexists _, _).
    destruct Hhd as (f & fs & Hfs). rewrite Hfs. simpl. unfold bind.
    rewrite close_delete_absent; [done| |].
    + destruct Hwf as [_ (h & Hu & _)]. exists h. exact Hu.
    + apply Hnone. rewrite Hfs. by left.
Qed.

(** ** Update and snapshot channels come in pairs *)

Lemma topic_feeds_apart (K K' : topic) (f : feed) :
  f ∈ topic_feeds K -> f ∈ topic_feeds K' -> K = K'.
Proof.
  destruct K, K'; simpl; try done;
    rewrite ?elem_of_cons, ?elem_of_nil; intros H1 H2;
    exfalso; destruct H1 as [->|[->|[]]] || destruct H1 as [->|[]];
    destruct H2 as [?|[?|[]]] || destruct H2 as [?|[]]; done.
Qed.

Lemma paired_same (w w' : World) :
  (forall f s, entry w' f s = entry w f s) -> paired w -> paired w'.
Proof.
  intros Hsame Hp K f1 f2 s H1 H2. rewrite !Hsame. by apply (Hp K).
Qed.

Lemma paired_registered (K : topic) (s : string) (w w' : World) :
  paired w ->
  (forall f, f ∈ topic_feeds K -> is_Some (entry w' f s)) ->
  same_elsewhere (topic_feeds K) s w w' ->
  paired w'.
Proof.
  intros Hp Hreg Hfr K' f1 f2 s' H1 H2 Hsome.
  destruct (decide (K' = K /\ s' = s)) as [[-> ->]|Hne]; [by apply Hreg|].
  assert (Hout : forall f, f ∈ topic_feeds K' -> ~ (f ∈ topic_feeds K /\ s' = s)).
  { intros f Hf [Hf' ->]. apply Hne. split; [|done].
    by apply (topic_feeds_apart _ _ f). }
  rewrite Hfr in Hsome by auto. rewrite Hfr by auto. by apply (Hp K' f1).
Qed.

Lemma paired_released (K : topic) (s : string) (w w' : World) :
  paired w ->
  (forall f, f ∈ topic_feeds K -> entry w' f s = None) ->
  same_elsewhere (topic_feeds K) s w w' ->
  paired w'.
Proof.
  intros Hp Hnone Hfr K' f1 f2 s' H1 H2 Hsome.
  destruct (decide (K' = K /\ s' = s)) as [[-> ->]|Hne].
  { rewrite Hnone in Hsome by done. by destruct Hsome. }
  assert (Hout : forall f, f ∈ topic_feeds K' -> ~ (f ∈ topic_feeds K /\ s' = s)).
  { intros f Hf [Hf' ->]. apply Hne. split; [|done].
    by apply (topic_feeds_apart _ _ f). }
  rewrite Hfr in Hsome by auto. rewrite Hfr by auto. by apply (Hp K' f1).
Qed.

Lemma subscribe_paired (K : topic) (s p : string) (w : World) :
  wf w -> paired w -> paired (subscribe K s p w).2.
Proof.
  intros Hwf Hp. pose proof Hwf as [[t Hc] _].
  destruct (Call t (subscribe_method K) (topic_params K s p)) as [r t'] eqn:Hcall.
  pose proof (subscribe_cases K s p w t t' r Hwf Hc Hcall) as Hcases. simpl in Hcases.
  destruct (guard_result K r) as [e|].
  - rewrite Hcases. simpl. by apply (paired_same w).
  - destruct Hcases as (w1 & k & -> & _ & _ & Hreg & Hfr & _). simpl.
    by apply (paired_registered K s w).
Qed.

Lemma unsubscribe_paired (K : topic) (s p : string) (w : World) :
  wf w -> paired w -> paired (unsubscribe K s p w).2.
Proof.
  intros Hwf Hp. pose proof Hwf as [[t Hc] _].
  destruct (Call t (unsubscribe_method K) (topic_params K s p)) as [r t'] eqn:Hcall.
  pose proof (unsubscribe_cases K s p w t t' r Hwf Hc Hcall) as Hcases.
  simpl in Hcases.
  destruct (guard_result K r) as [e|].
  - rewrite Hcases. simpl. by apply (paired_same w).
  - destruct Hcases as [Hreg Hnone].
    assert (Hhd : exists f, f ∈ topic_feeds K)
      by (destruct K; eexists; by left).
    destruct Hhd as [f0 Hf0].
    destruct (entry w f0 s) as [l|] eqn:Hl.
    + destruct Hreg as (w' & ls & -> & _ & _ & Hgone & Hfr & _).
      { intros f Hf. apply (Hp K f0 f s Hf0 Hf). by eexists. }
      simpl. by apply (paired_released K s w).
    + rewrite Hnone; [simpl; by apply (paired_same w)|].
      intros f Hf. destruct (entry w f s) as [l'|] eqn:Hl'; [|done].
      destruct (Hp K f f0 s Hf Hf0) as [? Hx]; [by eexists|]. congruence.
Qed.

Lemma subscribe_world (K : topic) (s p : string) (w : World) :
  (subscribe K s p w).2 =
    match K with
    | Ticker => (SubscribeTicker s w).2
    | Trades => (SubscribeTrades s w).2
    | Orderbook => (SubscribeOrderbook s w).2
    | Candles => (SubscribeCandles s p w).2
    end.
Proof.
  destruct K; unfold subscribe, bind, ret;
    match goal with
    | |- context [match ?m with _ => _ end] => by destruct m as [[?| |] ?]
    end.
Qed.

Lemma Handle_updates (req : Request) (w : World) :
  updates (Handle req w).2 = updates w.
Proof.
  rewrite Handle_decode.
  destruct (Params req) as [message|]; [|done].
  destruct (decode (Method req) message) as [[err|[[f symbol] v]]|]; [| |done];
    run; destruct (updates w) as [h|] eqn:Hu; try done; simpl.
  - by destruct (chans w !! ErrorFeed h) as [[]|].
  - destruct (feed_get f h !! symbol) as [l|]; [|done].
    by destruct (chans w !! l) as [[]|].
Qed.

Lemma step_paired (w w' : World) : wf w -> paired w -> step w w' -> paired w'.
Proof.
  intros Hwf Hp Hstep. destruct Hstep as [s|s|s|s|s|s|s p|s p|req|].
  - rewrite <- (subscribe_world Ticker s ""). by apply subscribe_paired.
  - by apply (unsubscribe_paired Ticker s "").
  - rewrite <- (subscribe_world Trades s ""). by apply subscribe_paired.
  - by apply (unsubscribe_paired Trades s "").
  - rewrite <- (subscribe_world Orderbook s ""). by apply subscribe_paired.
  - by apply (unsubscribe_paired Orderbook s "").
  - rewrite <- (subscribe_world Candles s p). by apply subscribe_paired.
  - by apply (unsubscribe_paired Candles s p).
  - apply (paired_same w); [|done]. intros f s. unfold entry.
    by rewrite Handle_updates.
  - destruct Hwf as [[t Hc] (h & Hu & Hcore)].
    rewrite (Close_run w t h Hc Hu Hcore). simpl.
    intros K f1 f2 s _ _ [l Hl]. unfold entry in Hl. simpl in Hl.
    by destruct f1.
Qed.

Lemma reachable_wf_paired (w : World) : reachable w -> wf w /\ paired w.
Proof.
  induction 1 as [c|w w' _ [Hwf Hp] Hstep].
  - split; [apply new_client_wf|]. intros K f1 f2 s _ _ [l Hl].
    unfold entry in Hl. simpl in Hl. by destruct f1.
  - split; [by eapply step_wf|by eapply step_paired].
Qed.

(** ** The further statements *)

Lemma guard_result_ack (K : topic) : guard_result K (CallOk true) = None.
Proof. by destruct K. Qed.

Lemma Handle_registered_run (req : Request) (message : RawMessage) (f : feed)
    (symbol : string) (v : value) (w : World) (l : nat) :
  wf w ->
  Params req = Some message ->
  decode (Method req) message = Some (inr (f, symbol, v)) ->
  entry w f symbol = Some l ->
  Handle req w = (Ret tt, emit (EvSend l v) w).
Proof.
  intros [_ (h & Hu & Hcore)] Hp Hd. unfold entry. rewrite Hu. intros Hl.
  rewrite Handle_decode, Hp, Hd. run. rewrite Hu. simpl. rewrite Hl.
  rewrite (wf_open _ _ Hcore _ _ _ Hl). by rewrite Hu.
Qed.

(** X2: after an acknowledged subscribe, a notification for the symbol
    that is routed to the [i]-th map of the kind is offered on the [i]-th
    channel the subscribe returned: updates on the update channel,
    snapshots on the snapshot channel. *)
Theorem subscribed_notification_delivered (K : topic) (symbol period : string)
    (w : World) (t t1 : T) (req : Request) (message : RawMessage) (f : feed)
    (v : value) (i : nat) :
  wf w ->
  conn w = Some t ->
  Call t (subscribe_method K) (topic_params K symbol period) = (CallOk true, t1) ->
  Params req = Some message ->
  decode (Method req) message = Some (inr (f, symbol, v)) ->
  topic_feeds K !! i = Some f ->
  exists chs w1 l,
    subscribe K symbol period w = (Ret (chs, None), w1) /\
    chs !! i = Some (Some l) /\
    Handle req w1 = (Ret tt, emit (EvSend l v) w1).
Proof.
  intros Hwf Hc Hsub Hp Hd Hi.
  destruct (subscribe_acknowledged_run K symbol period w t t1 Hwf Hc Hsub)
    as (w1 & Hrun & Hwf1 & _ & Hreg).
  destruct (Hreg f) as [l Hl]; [by eapply list_elem_of_lookup_2|].
  exists ((fun f => entry w1 f symbol) <$> topic_feeds K), w1, l.
  split; [done|]. split.
  - by rewrite list_lookup_fmap, Hi, <- Hl.
  - by apply (Handle_registered_run req message f symbol).
Qed.

(** X4: when the transport call fails, a subscribe returns nil channels
    and an unsubscribe returns, with the transport's error annotated by
    the name of the operation; apart from the call itself nothing
    happened: no map and no channel changed.  This holds in every world
    with a connection. *)
Theorem transport_error_untouched (K : topic) (symbol period : string) (w : World)
    (t t' : T) (e : error) :
  conn w = Some t ->
  (Call t (subscribe_method K) (topic_params K symbol period) = (CallErr e, t') ->
   subscribe K symbol period w =
     (Ret (replicate (length (topic_feeds K)) None,
           Some (ErrAnnotate e (subscribe_label K))),
      called (subscribe_method K) (topic_params K symbol period) t' w)) /\
  (Call t (unsubscribe_method K) (topic_params K symbol period) = (CallErr e, t') ->
   unsubscribe K symbol period w =
     (Ret (Some (ErrAnnotate e (unsubscribe_label K))),
      called (unsubscribe_method K) (topic_params K symbol period) t' w)).
Proof.
  intros Hc. split; intros Hcall.
  - rewrite subscribe_uniform_eq. unfold subscribe_uniform, bind.
    by rewrite (topic_op_call _ _ _ _ _ _ _ _ Hc Hcall).
  - rewrite unsubscribe_uniform_eq. unfold unsubscribe_uniform, bind.
    by rewrite (topic_op_call _ _ _ _ _ _ _ _ Hc Hcall).
Qed.

(** X5: for every topic kind, subscribing a symbol twice (both calls
    acknowledged) returns the same channels both times, and the second
    call does nothing but the transport call: no channel is made, none is
    closed, no map changes. *)
Theorem subscribe_twice_same_channels (K : topic) (symbol p1 p2 : string)
    (w : World) (t t1 t2 : T) :
  wf w ->
  conn w = Some t ->
  Call t (subscribe_method K) (topic_params K symbol p1) = (CallOk true, t1) ->
  Call t1 (subscribe_method K) (topic_params K symbol p2) = (CallOk true, t2) ->
  exists chs w1,
    subscribe K symbol p1 w = (Ret (chs, None), w1) /\
    subscribe K symbol p2 w1 =
      (Ret (chs, None),
       called (subscribe_method K) (topic_params K symbol p2) t2 w1).
Proof.
  intros Hwf Hc Hcall1 Hcall2.
  destruct (subscribe_acknowledged_run K symbol p1 w t t1 Hwf Hc Hcall1)
    as (w1 & Hrun1 & Hwf1 & Hc1 & Hreg).
  exists ((fun f => entry w1 f symbol) <$> topic_feeds K), w1.
  split; [done|].
  apply (subscribe_registered_run K symbol p2 w1 t1 t2); try done.
  destruct Hwf1 as [_ (h & -> & _)]. by eexists.
Qed.

(** X6: an acknowledged subscribe for (kind, symbol) leaves every other
    key mapped as before, keeps every channel that was registered, and
    changes no existing channel: the table of channels only grows by open
    channels, made after the one transport call, and a symbol that had no
    channel in a map of the kind gets one of the new ones. *)
Theorem subscribe_frame (K : topic) (symbol period : string) (w : World)
    (t t' : T) :
  wf w ->
  conn w = Some t ->
  Call t (subscribe_method K) (topic_params K symbol period) = (CallOk true, t') ->
  exists chs w1 k,
    subscribe K symbol period w = (Ret (chs, None), w1) /\
    (forall f' s', ~ (f' ∈ topic_feeds K /\ s' = symbol) ->
       entry w1 f' s' = entry w f' s') /\
    (forall f' s' l', entry w f' s' = Some l' -> entry w1 f' s' = Some l') /\
    chans w1 = chans w ++ replicate k Open /\
    trace w1 =
      trace w ++
      EvCall (subscribe_method K) (topic_params K symbol period)
        :: (EvMake <$> seq (length (chans w)) k) /\
    (forall f, f ∈ topic_feeds K -> entry w f symbol = None ->
       exists l, entry w1 f symbol = Some l /\ length (chans w) <= l).
Proof.
  intros Hwf Hc Hcall.
  pose proof (subscribe_cases K symbol period w t t' _ Hwf Hc Hcall) as Hcases.
  cbv zeta in Hcases. rewrite guard_result_ack in Hcases.
  destruct Hcases as (w1 & k & Hrun & _ & _ & _ & Hfr & Hkeep & Hch & Htr & Hnew).
  exists ((fun f => entry w1 f symbol) <$> topic_feeds K), w1, k.
  split; [done|]. split; [exact Hfr|]. split; [exact Hkeep|]. split; [exact Hch|].
  split; [|exact Hnew]. rewrite Htr. simpl. by rewrite <- app_assoc.
Qed.

(** X7: an acknowledged unsubscribe of a registered (kind, symbol) closes
    exactly the channels registered under that key, after the one
    transport call, and leaves every other key mapped as before with its
    channel still open. *)
Theorem unsubscribe_frame (K : topic) (symbol period : string) (w : World)
    (t t' : T) :
  wf w ->
  conn w = Some t ->
  Call t (unsubscribe_method K) (topic_params K symbol period) = (CallOk true, t') ->
  (forall f, f ∈ topic_feeds K -> is_Some (entry w f symbol)) ->
  exists w' ls,
    unsubscribe K symbol period w = (Ret None, w') /\
    (fun f => entry w f symbol) <$> topic_feeds K = Some <$> ls /\
    chans w' = mark_closed ls (chans w) /\
    trace w' =
      trace w ++
      EvCall (unsubscribe_method K) (topic_params K symbol period)
        :: (EvClose <$> ls) /\
    (forall f' s' l, ~ (f' ∈ topic_feeds K /\ s' = symbol) ->
       entry w f' s' = Some l ->
       entry w' f' s' = Some l /\ chans w' !! l = Some Open).
Proof.
  intros Hwf Hc Hcall Hreg.
  pose proof (unsubscribe_cases K symbol period w t t' _ Hwf Hc Hcall) as Hcases.
  cbv zeta in Hcases. rewrite guard_result_ack in Hcases.
  destruct Hcases as [Hok _].
  destruct (Hok Hreg) as (w' & ls & Hrun & Hwf' & _ & _ & Hfr & Hls & Hch & Htr).
  exists w', ls. split; [done|]. split; [done|]. split; [done|]. split.
  - rewrite Htr. simpl. by rewrite <- app_assoc.
  - intros f' s' l Hne Hl.
    assert (Hl' : entry w' f' s' = Some l) by (by rewrite Hfr).
    split; [done|].
    destruct Hwf' as [_ (h' & Hu' & Hcore')]. unfold entry in Hl'.
    rewrite Hu' in Hl'. apply (wf_open _ _ Hcore' _ _ _ Hl').
Qed.

(** X8: in every world a client can get into, a symbol is in the update
    map of a topic kind exactly when it is in the snapshot map of that
    kind. *)
Theorem reachable_paired (w : World) (K : topic) (f1 f2 : feed) (s : string) :
  reachable w ->
  f1 ∈ topic_feeds K -> f2 ∈ topic_feeds K ->
  is_Some (entry w f1 s) <-> is_Some (entry w f2 s).
Proof.
  intros [_ Hp]%reachable_wf_paired H1 H2. split; by apply (Hp K).
Qed.

(** X9: in every world a client can get into, the connection and the
    handler are non-nil, every registered channel is open, no channel is
    registered under two keys, and the error feed is open and is none of
    the registered channels. *)
Theorem reachable_registry_invariant (w : World) :
  reachable w ->
  exists t h,
    conn w = Some t /\ updates w = Some h /\
    (forall f s l, feed_get f h !! s = Some l -> chans w !! l = Some Open) /\
    (forall f1 s1 f2 s2 l,
       feed_get f1 h !! s1 = Some l -> feed_get f2 h !! s2 = Some l ->
       f1 = f2 /\ s1 = s2) /\
    chans w !! ErrorFeed h = Some Open /\
    (forall f s, feed_get f h !! s <> Some (ErrorFeed h)).
Proof.
  intros [[t Hc] (h & Hu & [Hopen Hinj Herr Hapart])]%reachable_wf.
  exists t, h. split; [done|]. split; [done|]. split; [exact Hopen|].
  split; [exact Hinj|]. split; [exact Herr|exact Hapart].
Qed.

(** X11: in every world a client can get into, a subscribe returns
    (it neither panics nor blocks) whatever the connection answers.
    Without an error every returned channel is non-nil and open; with an
    error every returned channel is nil and no map and no channel
    changed. *)
Theorem reachable_subscribe_returns (K : topic) (symbol period : string)
    (w : World) :
  reachable w ->
  exists chs e w',
    subscribe K symbol period w = (Ret (chs, e), w') /\
    length chs = length (topic_feeds K) /\
    match e with
    | None => forall c, c ∈ chs -> exists l, c = Some l /\ chans w' !! l = Some Open
    | Some _ =>
        (forall c, c ∈ chs -> c = None) /\
        updates w' = updates w /\ chans w' = chans w
    end.
Proof.
  intros Hwf%reachable_wf. pose proof Hwf as [[t Hc] _].
  destruct (Call t (subscribe_method K) (topic_params K symbol period))
    as [r t'] eqn:Hcall.
  pose proof (subscribe_cases K symbol period w t t' r Hwf Hc Hcall) as Hcases.
  simpl in Hcases. destruct (guard_result K r) as [e|].
  - eexists _, _, _. split; [exact Hcases|]. split; [by rewrite length_replicate|].
    split; [|done]. by intros c [-> _]%elem_of_replicate.
  - destruct Hcases as (w1 & k & Hrun & Hwf1 & _ & Hreg & _).
    eexists _, _, _. split; [exact Hrun|]. split; [by rewrite length_fmap|].
    intros c (f & -> & Hf)%list_elem_of_fmap.
    destruct (Hreg f Hf) as [l Hl]. exists l. split; [done|].
    destruct Hwf1 as [_ (h1 & Hu1 & Hcore1)]. unfold entry in Hl.
    rewrite Hu1 in Hl. apply (wf_open _ _ Hcore1 _ _ _ Hl).
Qed.

(** X12: in every world a client can get into, an unsubscribe ends in one
    of three ways: it returns an error with no map and no channel
    changed; or the symbol was registered in every map of the kind and it
    returns nil with the symbol gone from them; or the symbol was in none
    of them and it panics on the close of the nil channel, again with
    nothing changed.  It never blocks, and never closes a channel
    twice. *)
Theorem reachable_unsubscribe_outcomes (K : topic) (symbol period : string)
    (w : World) :
  reachable w ->
  (exists e w',
     unsubscribe K symbol period w = (Ret (Some e), w') /\
     updates w' = updates w /\ chans w' = chans w) \/
  (exists w',
     unsubscribe K symbol period w = (Ret None, w') /\
     (forall f, f ∈ topic_feeds K -> is_Some (entry w f symbol)) /\
     (forall f, f ∈ topic_feeds K -> entry w' f symbol = None)) \/
  (exists w',
     unsubscribe K symbol period w = (Panic close_nil, w') /\
     (forall f, f ∈ topic_feeds K -> entry w f symbol = None) /\
     updates w' = updates w /\ chans w' = chans w).
Proof.
  intros [Hwf Hp]%reachable_wf_paired. pose proof Hwf as [[t Hc] _].
  destruct (Call t (unsubscribe_method K) (topic_params K symbol period))
    as [r t'] eqn:Hcall.
  pose proof (unsubscribe_cases K symbol period w t t' r Hwf Hc Hcall) as Hcases.
  simpl in Hcases. destruct (guard_result K r) as [e|].
  - left. eexists _, _. split; [exact Hcases|done].
  - destruct Hcases as [Hok Hnil]. right.
    assert (Hhd : exists f, f ∈ topic_feeds K) by (destruct K; eexists; by left).
    destruct Hhd as [f0 Hf0].
    destruct (entry w f0 symbol) as [l|] eqn:Hl.
    + assert (Hreg : forall f, f ∈ topic_feeds K -> is_Some (entry w f symbol)).
      { intros f Hf. apply (Hp K f0 f symbol Hf0 Hf). by eexists. }
      destruct (Hok Hreg) as (w' & ls & Hrun & _ & _ & Hgone & _).
      left. exists w'. by repeat split.
    + assert (Hnone : forall f, f ∈ topic_feeds K -> entry w f symbol = None).
      { intros f Hf. destruct (entry w f symbol) as [l'|] eqn:Hl'; [|done].
        destruct (Hp K f f0 symbol Hf Hf0) as [? Hx]; [by eexists|]. congruence. }
      right. eexists. split; [exact (Hnil Hnone)|done].
Qed.

(** X13: a second [Close] right after a first one does not panic: it
    finds the seven maps empty and closes nothing but the connection and
    the error feed the first call made, which it replaces again. *)
Theorem Close_twice_safe (w : World) :
  wf w ->
  exists w1 w2,
    Close w = (Ret tt, w1) /\
    Close w1 = (Ret tt, w2) /\
    trace w2 =
      trace w1 ++
      [EvConnClose; EvClose (length (chans w)); EvMake (S (length (chans w)))] /\
    (forall f s, entry w2 f s = None).
Proof.
  intros [[t Hc] (h & Hu & Hcore)].
  pose proof (Close_run w t h Hc Hu Hcore) as Hrun1.
  set (cs1 := mark_closed (registered_chans h ++ [ErrorFeed h]) (chans w)) in *.
  assert (Hlen : length cs1 = length (chans w)) by apply length_mark_closed.
  match type of Hrun1 with _ = (_, ?x) => set (w1 := x) in * end.
  assert (Hcore1 : wf_core (fresh_registry (length (chans w))) (chans w1)).
  { simpl. rewrite <- Hlen. apply wf_core_fresh. }
  exists w1. eexists. split; [exact Hrun1|].
  rewrite (Close_run w1 (ConnClose t) (fresh_registry (length (chans w)))
             eq_refl eq_refl Hcore1).
  split; [reflexivity|]. simpl. split.
  - rewrite length_app, Hlen. simpl.
    by replace (length (chans w) + 1) with (S (length (chans w))) by lia.
  - intros f s. unfold entry. simpl. by destruct f.
Qed.

(** X14: after [Close] the handler works on the new error feed and the
    empty maps, and delivers nothing: a payload that does not decode is
    sent to the error feed [Close] made, which is open, so the handler
    parks there and does not panic on the feed that was closed; a
    notification that decodes finds no channel and blocks, whatever was
    subscribed before. *)
Theorem Handle_after_Close (w : World) (h : responseChannels) (req : Request)
    (message : RawMessage) :
  wf w ->
  updates w = Some h ->
  Params req = Some message ->
  exists w1,
    Close w = (Ret tt, w1) /\
    chans w1 !! ErrorFeed h = Some Closed /\
    updates w1 = Some (fresh_registry (length (chans w))) /\
    chans w1 !! length (chans w) = Some Open /\
    match decode (Method req) message with
    | Some _ => Handle req w1 = (Blocked, w1)
    | None => Handle req w1 = (Ret tt, w1)
    end.
Proof.
  intros Hwf Hu Hp. pose proof Hwf as [[t Hc] (h' & Hu' & Hcore)].
  assert (h' = h) as -> by congruence.
  pose proof (Close_run w t h Hc Hu Hcore) as Hrun.
  set (cs1 := mark_closed (registered_chans h ++ [ErrorFeed h]) (chans w)) in *.
  assert (Hlen : length cs1 = length (chans w)) by apply length_mark_closed.
  assert (Hnew : (cs1 ++ [Open]) !! length (chans w) = Some Open).
  { rewrite lookup_app_r by lia.
    by replace (length (chans w) - length cs1) with 0 by lia. }
  eexists. split; [exact Hrun|]. simpl. split; [|split; [done|split; [done|]]].
  - rewrite lookup_app_l.
    + apply mark_closed_in.
      * apply elem_of_app. right. by apply list_elem_of_singleton.
      * eapply lookup_lt_Some, (wf_err_open _ _ Hcore).
    + rewrite Hlen. eapply lookup_lt_Some, (wf_err_open _ _ Hcore).
  - rewrite Handle_decode, Hp.
    destruct (decode (Method req) message) as [[err|[[f symbol] v]]|]; [| |done].
    + run. by rewrite Hnew.
    + run. by destruct f.
Qed.

(** X15: subscribe, unsubscribe and subscribe again (all acknowledged):
    the second subscribe returns channels that are open and are none of
    the channels the first one returned, and those stay closed. *)
Theorem resubscribe_gets_new_channels (K : topic) (symbol period : string)
    (w : World) (t t1 t2 t3 : T) :
  wf w ->
  conn w = Some t ->
  Call t (subscribe_method K) (topic_params K symbol period) = (CallOk true, t1) ->
  Call t1 (unsubscribe_method K) (topic_params K symbol period) = (CallOk true, t2) ->
  Call t2 (subscribe_method K) (topic_params K symbol period) = (CallOk true, t3) ->
  exists chs1 w1 w2 chs2 w3,
    subscribe K symbol period w = (Ret (chs1, None), w1) /\
    unsubscribe K symbol period w1 = (Ret None, w2) /\
    subscribe K symbol period w2 = (Ret (chs2, None), w3) /\
    (forall c, c ∈ chs1 -> exists l, c = Some l /\ chans w3 !! l = Some Closed) /\
    (forall c, c ∈ chs2 ->
       exists l, c = Some l /\ chans w3 !! l = Some Open /\ c ∉ chs1).
Proof.
  intros Hwf Hc Hsub1 Hunsub Hsub2.
  destruct (subscribe_acknowledged_run K symbol period w t t1 Hwf Hc Hsub1)
    as (w1 & Hrun1 & Hwf1 & Hc1 & Hreg1).
  pose proof (unsubscribe_cases K symbol period w1 t1 t2 _ Hwf1 Hc1 Hunsub) as Hun.
  cbv zeta in Hun. rewrite guard_result_ack in Hun. destruct Hun as [Hok _].
  destruct (Hok Hreg1)
    as (w2 & ls & Hrun2 & Hwf2 & Hc2 & Hgone & _ & Hls & Hch2 & _).
  pose proof (subscribe_cases K symbol period w2 t2 t3 _ Hwf2 Hc2 Hsub2) as Hre.
  cbv zeta in Hre. rewrite guard_result_ack in Hre.
  destruct Hre as (w3 & k & Hrun3 & Hwf3 & _ & _ & _ & _ & Hch3 & _ & Hnew).
  assert (Hlen : length (chans w2) = length (chans w1))
    by (by rewrite Hch2, length_mark_closed).
  assert (Hold : forall f l, f ∈ topic_feeds K -> entry w1 f symbol = Some l ->
                             l < length (chans w1) /\ l ∈ ls).
  { intros f l Hf Hl. split.
    - destruct Hwf1 as [_ (h1 & Hu1 & Hcore1)]. unfold entry in Hl.
      rewrite Hu1 in Hl. eapply lookup_lt_Some, (wf_open _ _ Hcore1 _ _ _ Hl).
    - assert (Hin : Some l ∈ (fun f => entry w1 f symbol) <$> topic_feeds K).
      { apply list_elem_of_fmap. by exists f. }
      rewrite Hls in Hin. apply list_elem_of_fmap in Hin as (l' & [= ->] & Hl').
      done. }
  exists ((fun f => entry w1 f symbol) <$> topic_feeds K), w1, w2,
    ((fun f => entry w3 f symbol) <$> topic_feeds K), w3.
  split; [done|]. split; [done|]. split; [done|]. split.
  - intros c (f & -> & Hf)%list_elem_of_fmap.
    destruct (Hreg1 f Hf) as [l Hl]. exists l. split; [done|].
    destruct (Hold f l Hf Hl) as [Hlt Hin].
    rewrite Hch3, lookup_app_l by lia. rewrite Hch2. by apply mark_closed_in.
  - intros c (f & -> & Hf)%list_elem_of_fmap.
    destruct (Hnew f Hf (Hgone f Hf)) as (l & Hl & Hge).
    exists l. split; [done|]. split.
    + destruct Hwf3 as [_ (h3 & Hu3 & Hcore3)]. unfold entry in Hl.
      rewrite Hu3 in Hl. apply (wf_open _ _ Hcore3 _ _ _ Hl).
    + rewrite Hl. intros (f' & Heq & Hf')%list_elem_of_fmap.
      destruct (Hold f' l Hf' (eq_sym Heq)) as [Hlt _]. lia.
Qed.

(** ** No open channel is left outside the registry *)

Lemma keeps_no_orphan_ret {A} (a : A) : keeps_no_orphan (ret a : M A).
Proof. by intros w Hw. Qed.

Lemma keeps_no_orphan_bind {A B} (m : M A) (k : A -> M B) :
  keeps_no_orphan m -> (forall a, keeps_no_orphan (k a)) ->
  keeps_no_orphan (bind m k).
Proof.
  intros Hm Hk w Hw. specialize (Hm w Hw). unfold bind.
  destruct (m w) as [[a| |] w']; [by apply Hk|done|done].
Qed.

Lemma keeps_no_orphan_conn_Call (op : string) (p : params) :
  keeps_no_orphan (conn_Call op p : M _).
Proof.
  intros w Hw. unfold conn_Call. destruct (conn w) as [t|]; [|done].
  destruct (Call t op p) as [r t']. exact Hw.
Qed.

Lemma keeps_no_orphan_subscriptionOp (op s : string) :
  keeps_no_orphan (subscriptionOp op s : M _).
Proof.
  apply keeps_no_orphan_bind; [by intros w Hw|]. intros [t|]; [|by intros w Hw].
  apply keeps_no_orphan_bind; [apply keeps_no_orphan_conn_Call|].
  intros [e|[]]; by intros w Hw.
Qed.

Lemma keeps_no_orphan_candlesSubscriptionOp (op s p : string) :
  keeps_no_orphan (candlesSubscriptionOp op s p : M _).
Proof.
  apply keeps_no_orphan_bind; [apply keeps_no_orphan_conn_Call|].
  intros [e|b]; by intros w Hw.
Qed.

Lemma keeps_no_orphan_feed_lookup (f : feed) (s : string) :
  keeps_no_orphan (feed_lookup f s : M _).
Proof. intros w Hw. run. by destruct (updates w). Qed.

Lemma keeps_no_orphan_ensure (f : feed) (s : string) :
  keeps_no_orphan (ensure f s : M unit).
Proof.
  intros w Hw. destruct (updates w) as [h|] eqn:Hu; [|by (run; rewrite Hu)].
  destruct (feed_get f h !! s) as [l|] eqn:Hl.
  - rewrite (ensure_present f s w l); [done|]. unfold entry. by rewrite Hu.
  - rewrite (ensure_absent f s w h Hu Hl). intros l. simpl. intros Hopen.
    eexists. split; [reflexivity|]. rewrite ErrorFeed_feed_set.
    destruct (decide (l = length (chans w))) as [->|Hne].
    + right. exists f, s. by rewrite lookup_feed_insert, decide_True.
    + assert (Hold : chans w !! l = Some Open).
      { apply lookup_app_Some in Hopen as [?|[? Hx]]; [done|].
        apply list_lookup_singleton_Some in Hx as [? _]. lia. }
      destruct (Hw l Hold) as (h' & Hu' & Hcase).
      assert (h' = h) as -> by congruence.
      destruct Hcase as [?|(f' & s' & Hl')]; [by left|right].
      exists f', s'. rewrite lookup_feed_insert, decide_False; [done|].
      intros [<- <-]. congruence.
Qed.

Lemma keeps_no_orphan_close_delete (f : feed) (s : string) :
  keeps_no_orphan (close_delete f s : M unit).
Proof.
  intros w Hw. run. destruct (updates w) as [h|] eqn:Hu; [|done]. simpl.
  destruct (feed_get f h !! s) as [l|] eqn:Hl; [|done].
  destruct (chans w !! l) as [[]|] eqn:Hopen; try done. simpl. rewrite Hu. simpl.
  intros l' Hl'. simpl in Hl'. eexists. split; [reflexivity|].
  rewrite ErrorFeed_feed_set.
  assert (Hne : l' <> l).
  { intros ->. rewrite list_lookup_insert_eq in Hl'; [done|].
    eapply lookup_lt_Some, Hopen. }
  rewrite list_lookup_insert_ne in Hl' by done.
  destruct (Hw l' Hl') as (h' & Hu' & Hcase).
  assert (h' = h) as -> by congruence.
  destruct Hcase as [?|(f' & s' & Hx)]; [by left|right].
  exists f', s'. rewrite lookup_feed_delete, decide_False; [done|].
  intros [<- <-]. congruence.
Qed.

Ltac no_orphan_tac :=
  repeat first
    [ apply keeps_no_orphan_ret
    | apply keeps_no_orphan_subscriptionOp
    | apply keeps_no_orphan_candlesSubscriptionOp
    | apply keeps_no_orphan_ensure
    | apply keeps_no_orphan_close_delete
    | apply keeps_no_orphan_feed_lookup
    | apply keeps_no_orphan_bind
    | match goal with
      | |- forall _ : option _, _ => intros [?|]
      | |- forall _, keeps_no_orphan _ => intros ?
      end ].

Lemma keeps_no_orphan_subscribe (K : topic) (s p : string) :
  keeps_no_orphan (subscribe K s p : M _).
Proof.
  destruct K; unfold subscribe, SubscribeTicker, SubscribeTrades,
    SubscribeOrderbook, SubscribeCandles; no_orphan_tac.
Qed.

Lemma keeps_no_orphan_unsubscribe (K : topic) (s p : string) :
  keeps_no_orphan (unsubscribe K s p : M _).
Proof.
  destruct K; unfold unsubscribe, UnsubscribeTicker, UnsubscribeTrades,
    UnsubscribeOrderbook, UnsubscribeCandles; no_orphan_tac.
Qed.

Lemma Handle_chans (req : Request) (w : World) :
  chans (Handle req w).2 = chans w.
Proof.
  rewrite Handle_decode.
  destruct (Params req) as [message|]; [|done].
  destruct (decode (Method req) message) as [[err|[[f symbol] v]]|]; [| |done];
    run; destruct (updates w) as [h|] eqn:Hu; try done; simpl.
  - by destruct (chans w !! ErrorFeed h) as [[]|].
  - destruct (feed_get f h !! symbol) as [l|]; [|done].
    by destruct (chans w !! l) as [[]|].
Qed.

Lemma step_no_orphan (w w' : World) :
  wf w -> no_orphan w -> step w w' -> no_orphan w'.
Proof.
  intros Hwf Hw Hstep. destruct Hstep as [s|s|s|s|s|s|s p|s p|req|].
  - rewrite <- (subscribe_world Ticker s ""). by apply keeps_no_orphan_subscribe.
  - by apply (keeps_no_orphan_unsubscribe Ticker s "").
  - rewrite <- (subscribe_world Trades s ""). by apply keeps_no_orphan_subscribe.
  - by apply (keeps_no_orphan_unsubscribe Trades s "").
  - rewrite <- (subscribe_world Orderbook s ""). by apply keeps_no_orphan_subscribe.
  - by apply (keeps_no_orphan_unsubscribe Orderbook s "").
  - rewrite <- (subscribe_world Candles s p). by apply keeps_no_orphan_subscribe.
  - by apply (keeps_no_orphan_unsubscribe Candles s p).
  - intros l. rewrite Handle_chans, Handle_updates. apply Hw.
  - destruct Hwf as [[t Hc] (h & Hu & Hcore)].
    rewrite (Close_run w t h Hc Hu Hcore). simpl. intros l Hl.
    eexists. split; [reflexivity|]. left. simpl.
    set (closed := registered_chans h ++ [ErrorFeed h]) in *.
    apply lookup_app_Some in Hl as [Hl|[Hge Hl]].
    + exfalso. assert (Hlt : l < length (chans w)).
      { rewrite <- (length_mark_closed closed). eapply lookup_lt_Some, Hl. }
      destruct (decide (l ∈ closed)) as [Hin|Hnin].
      * rewrite mark_closed_in in Hl by done. done.
      * rewrite mark_closed_notin in Hl by done.
        destruct (Hw l Hl) as (h' & Hu' & Hcase).
        assert (h' = h) as -> by congruence. apply Hnin, elem_of_app.
        destruct Hcase as [->|Hreg]; [right; by apply list_elem_of_singleton|].
        left. by apply elem_of_registered_chans.
    + apply list_lookup_singleton_Some in Hl as [Hz _].
      rewrite length_mark_closed in Hge, Hz. lia.
Qed.

Lemma new_client_no_orphan (c : T) : no_orphan (new_client c).
Proof.
  intros l Hl. eexists. split; [reflexivity|]. left. simpl in *.
  by apply list_lookup_singleton_Some in Hl as [-> _].
Qed.

(** X17: in every world a client can get into, every channel ever made
    is closed unless it is the current error feed or is registered under
    some key now: no open channel is left that neither [Handle] can send
    on nor an unsubscribe or [Close] would close. *)
Theorem reachable_no_orphan (w : World) (l : nat) :
  reachable w ->
  l < length (chans w) ->
  go_recv (chans w) l = RecvClosed \/
  exists h,
    updates w = Some h /\
    (l = ErrorFeed h \/ exists f s, feed_get f h !! s = Some l).
Proof.
  intros Hreach Hlt.
  assert (Hinv : wf w /\ no_orphan w).
  { clear Hlt. induction Hreach as [c|w w' _ [Hwf Hno] Hstep].
    - split; [apply new_client_wf|apply new_client_no_orphan].
    - split; [by eapply step_wf|by eapply step_no_orphan]. }
  destruct Hinv as [_ Hno]. unfold go_recv.
  destruct (lookup_lt_is_Some_2 _ _ Hlt) as [[] Hl]; rewrite Hl; [right|by left].
  by apply Hno.
Qed.

End RouterProofs.

(** * The statements at concrete inputs *)

#[local] Existing Instance ScriptTransport.
#[local] Existing Instance ToyJson.

(** A session on the scripted connection: the acknowledged order-book
    subscribe made the update channel 1 and the snapshot channel 2 (0 is
    the error feed); a snapshot is offered on 2, an update on 1. *)
Example orderbook_session_channels :
  SubscribeOrderbook "ETHBTC" (demo_client [CallOk true; CallOk true]) =
    (Ret (Some 1, Some 2, None), orderbook_client true).
Proof. reflexivity. Qed.

Example orderbook_session_snapshot :
  exists v,
    Handle {| Method := "snapshotOrderbook"; Params := Some "ETHBTC" |}
      (orderbook_client true) =
    (Ret tt, emit (EvSend 2 (VOrderbookSnapshot v)) (orderbook_client true)).
Proof. eexists. vm_compute. reflexivity. Qed.

Example orderbook_session_update :
  exists v,
    Handle {| Method := "updateOrderbook"; Params := Some "ETHBTC" |}
      (orderbook_client true) =
    (Ret tt, emit (EvSend 1 (VOrderbookUpdate v)) (orderbook_client true)).
Proof. eexists. vm_compute. reflexivity. Qed.

(** A second [Close] finds empty maps and an open error feed. *)
Example Close_twice :
  (Close (Close (orderbook_client true)).2).1 = Ret tt.
Proof. vm_compute. reflexivity. Qed.

Lemma orderbook_client_wf (ack : bool) : wf (orderbook_client ack).
Proof.
  apply reachable_wf. eapply reachable_step; [apply reachable_new|].
  apply step_SubscribeOrderbook.
Defined.

Lemma SubscribeCandles_ignores_rejection_witness :
  exists w',
    SubscribeCandles "BTCUSD" Interval1Hour (demo_client [CallOk false]) =
      (Ret (Some 1, Some 2, None), w') /\
    entry w' FCandlesUpd "BTCUSD" = Some 1 /\
    entry w' FCandlesSnap "BTCUSD" = Some 2 /\
    chans w' = [Open; Open; Open].
Proof.
  apply (SubscribeCandles_ignores_rejection "BTCUSD" Interval1Hour
           (demo_client [CallOk false]) [CallOk false] []);
    [by eexists|reflexivity..].
Defined.

Lemma unsubscribe_never_subscribed_panics_witness :
  UnsubscribeTicker "ETHBTC" (demo_client [CallOk true]) =
    (Panic close_nil,
     called "unsubscribeTicker" (PSub {| sub_Symbol := "ETHBTC" |}) []
       (demo_client [CallOk true])).
Proof.
  apply (unsubscribe_never_subscribed_panics Ticker "ETHBTC" ""
           (demo_client [CallOk true]) [CallOk true] []);
    [by eexists|reflexivity|reflexivity|].
  intros f _. by destruct f.
Defined.

Lemma Handle_unregistered_symbol_blocks_witness :
  Handle {| Method := "ticker"; Params := Some "ETHBTC" |} (demo_client []) =
    (Blocked, demo_client []).
Proof.
  eapply Handle_unregistered_symbol_blocks;
    [reflexivity|reflexivity|by eexists|reflexivity].
Defined.

(** C4, as stated, fails: after an acknowledged [SubscribeOrderbook], an
    unsubscribe whose transport call returns no error but the
    acknowledgment false does not return nil and does not delete the
    key. *)
Lemma unsubscribe_rejected_keeps_channels :
  conn (orderbook_client false) = Some [CallOk false] /\
  Call [CallOk false] "unsubscribeOrderbook" (PSub {| sub_Symbol := "ETHBTC" |}) =
    (CallOk false, []) /\
  ~ (exists w',
       UnsubscribeOrderbook "ETHBTC" (orderbook_client false) = (Ret None, w') /\
       entry w' FOrderbookUpd "ETHBTC" = None /\
       entry w' FOrderbookSnap "ETHBTC" = None).
Proof.
  split; [reflexivity|]. split; [reflexivity|].
  intros (w' & Hrun & _). vm_compute in Hrun. discriminate Hrun.
Qed.

Lemma unsubscribe_acknowledged_witness :
  exists w',
    UnsubscribeOrderbook "ETHBTC" (orderbook_client true) = (Ret None, w') /\
    (forall f, f ∈ topic_feeds Orderbook -> entry w' f "ETHBTC" = None) /\
    (forall f l, f ∈ topic_feeds Orderbook ->
       entry (orderbook_client true) f "ETHBTC" = Some l ->
       chans w' !! l = Some Closed).
Proof.
  refine (proj1 (unsubscribe_acknowledged Orderbook "ETHBTC" ""
                   (orderbook_client true) [CallOk true] [] true
                   (orderbook_client_wf true) eq_refl eq_refl _) eq_refl).
  intros f [->|[->|[]%elem_of_nil]%elem_of_cons]%elem_of_cons; by eexists.
Defined.

Lemma subscribe_then_unsubscribe_releases_witness :
  exists chs w1 w2,
    subscribe Trades "ETHBTC" "" (demo_client [CallOk true; CallOk true]) =
      (Ret (chs, None), w1) /\
    length chs = 2 /\
    unsubscribe Trades "ETHBTC" "" w1 = (Ret None, w2) /\
    (forall f, f ∈ topic_feeds Trades -> entry w2 f "ETHBTC" = None) /\
    (forall c, c ∈ chs -> exists l, c = Some l /\ go_recv (chans w2) l = RecvClosed).
Proof.
  apply (subscribe_then_unsubscribe_releases Trades "ETHBTC" ""
           (demo_client [CallOk true; CallOk true])
           [CallOk true; CallOk true] [CallOk true] []);
    [apply new_client_wf|reflexivity..].
Defined.

Lemma Close_closes_everything_witness :
  exists w',
    Close (orderbook_client true) = (Ret tt, w') /\
    conn w' = Some [] /\
    (forall f, entry w' f "ETHBTC" = None) /\
    wf w'.
Proof.
  destruct (orderbook_client_wf true) as [_ (h & Hu & Hcore)].
  destruct (Close_closes_everything (orderbook_client true) [CallOk true] h
              eq_refl Hu Hcore)
    as (w' & Hrun & _ & _ & _ & _ & Hconn & Hupd & Hempty & _ & Hwf).
  exists w'. split; [exact Hrun|]. split; [exact Hconn|]. split; [|exact Hwf].
  intros f. unfold entry. rewrite Hupd, Hempty. reflexivity.
Defined.

(** C7, as stated, fails: the second subscribe, for another period,
    neither returns another pair of channels nor changes what the
    registry holds under the symbol. *)
Lemma candles_resubscribe_keeps_first_pair :
  ~ (exists r1 w1 r2 w2,
       SubscribeCandles "BTCUSD" Interval1Hour
         (demo_client [CallOk true; CallOk true]) = (Ret r1, w1) /\
       SubscribeCandles "BTCUSD" Interval30Minutes w1 = (Ret r2, w2) /\
       (r2 <> r1 \/
        entry w2 FCandlesUpd "BTCUSD" <> entry w1 FCandlesUpd "BTCUSD" \/
        entry w2 FCandlesSnap "BTCUSD" <> entry w1 FCandlesSnap "BTCUSD")).
Proof.
  intros (r1 & w1 & r2 & w2 & H1 & H2 & Hd).
  vm_compute in H1. injection H1 as <- <-.
  vm_compute in H2. injection H2 as <- <-.
  destruct Hd as [Hd|[Hd|Hd]]; apply Hd; reflexivity.
Qed.

Lemma SubscribeCandles_again_same_channels_witness :
  exists u s w1,
    SubscribeCandles "BTCUSD" Interval1Hour
      (demo_client [CallOk true; CallOk true]) = (Ret (Some u, Some s, None), w1) /\
    SubscribeCandles "BTCUSD" Interval30Minutes w1 =
      (Ret (Some u, Some s, None),
       called "subscribeCandles"
         (PCandles {| csub_Symbol := "BTCUSD"; csub_Period := Interval30Minutes |})
         [] w1) /\
    entry w1 FCandlesUpd "BTCUSD" = Some u /\
    entry w1 FCandlesSnap "BTCUSD" = Some s.
Proof.
  apply (SubscribeCandles_again_same_channels "BTCUSD" Interval1Hour
           Interval30Minutes (demo_client [CallOk true; CallOk true])
           [CallOk true; CallOk true] [CallOk true] []);
    [apply new_client_wf|reflexivity..].
Defined.

Lemma Handle_unknown_method_ignored_witness :
  Handle {| Method := "heartbeat"; Params := Some "ETHBTC" |} (demo_client []) =
    (Ret tt, demo_client []).
Proof.
  apply Handle_unknown_method_ignored. compute_done.
Defined.

Lemma Handle_decode_error_parks_witness :
  Handle {| Method := "updateTrades"; Params := Some "" |} (demo_client []) =
    (Blocked, demo_client []) /\
  parked_sender (chans (demo_client [])) 0 = Blocked /\
  exists w1,
    Close (demo_client []) = (Ret tt, w1) /\
    parked_sender (chans w1) 0 = Panic send_closed.
Proof.
  exact (Handle_decode_error_parks
           {| Method := "updateTrades"; Params := Some "" |} ""
           (ErrForeign "unexpected end of JSON input")
           (demo_client []) [] (fresh_registry 0)
           eq_refl eq_refl eq_refl eq_refl (wf_core_fresh [])).
Defined.

Lemma nil_conn_guard_witness :
  SubscribeTicker "ETHBTC" zero_client =
    (Ret (None, uninitialized "Hitbtc SubscribeTicker"), zero_client) /\
  SubscribeCandles "ETHBTC" Interval1Hour zero_client = (Panic nil_deref, zero_client).
Proof.
  pose proof (nil_conn_guard "ETHBTC" Interval1Hour zero_client eq_refl)
    as (Hticker & _ & _ & _ & _ & _ & Hcandles & _).
  exact (conj Hticker Hcandles).
Defined.

(** ** The further statements at concrete inputs *)

Lemma orderbook_client_reachable (ack : bool) : reachable (orderbook_client ack).
Proof.
  eapply reachable_step; [apply reachable_new|]. apply step_SubscribeOrderbook.
Defined.

Lemma Handle_delivers_registered_witness :
  exists v,
    Handle {| Method := "snapshotOrderbook"; Params := Some "ETHBTC" |}
      (orderbook_client true) =
    (Ret tt, emit (EvSend 2 (VOrderbookSnapshot v)) (orderbook_client true)).
Proof.
  destruct (orderbook_client_wf true) as [_ (h & Hu & Hcore)].
  assert (Hl : entry (orderbook_client true) FOrderbookSnap "ETHBTC" = Some 2)
    by reflexivity.
  unfold entry in Hl. rewrite Hu in Hl.
  eexists.
  refine (proj1 (Handle_delivers_registered
                   {| Method := "snapshotOrderbook"; Params := Some "ETHBTC" |}
                   "ETHBTC" FOrderbookSnap "ETHBTC" _ (orderbook_client true) h 2
                   eq_refl eq_refl Hu Hcore Hl)).
Defined.

Lemma subscribed_notification_delivered_witness :
  exists v chs w1 l,
    subscribe Orderbook "ETHBTC" "" (demo_client [CallOk true]) =
      (Ret (chs, None), w1) /\
    chs !! 0 = Some (Some l) /\
    Handle {| Method := "updateOrderbook"; Params := Some "ETHBTC" |} w1 =
      (Ret tt, emit (EvSend l (VOrderbookUpdate v)) w1).
Proof.
  eexists.
  apply (subscribed_notification_delivered Orderbook "ETHBTC" ""
           (demo_client [CallOk true]) [CallOk true] []
           {| Method := "updateOrderbook"; Params := Some "ETHBTC" |}
           "ETHBTC" FOrderbookUpd _ 0);
    [apply new_client_wf|reflexivity..].
Defined.

Lemma transport_error_untouched_witness :
  subscribe Ticker "ETHBTC" ""
    (demo_client [CallErr (ErrForeign "unexpected EOF")]) =
    (Ret ([None],
          Some (ErrAnnotate (ErrForeign "unexpected EOF") "Hitbtc SubscribeTicker")),
     called "subscribeTicker" (PSub {| sub_Symbol := "ETHBTC" |}) []
       (demo_client [CallErr (ErrForeign "unexpected EOF")])).
Proof.
  exact (proj1 (transport_error_untouched Ticker "ETHBTC" ""
                  (demo_client [CallErr (ErrForeign "unexpected EOF")])
                  [CallErr (ErrForeign "unexpected EOF")] []
                  (ErrForeign "unexpected EOF") eq_refl) eq_refl).
Defined.

Lemma subscribe_twice_same_channels_witness :
  exists chs w1,
    subscribe Ticker "ETHBTC" "" (demo_client [CallOk true; CallOk true]) =
      (Ret (chs, None), w1) /\
    subscribe Ticker "ETHBTC" "" w1 =
      (Ret (chs, None),
       called "subscribeTicker" (PSub {| sub_Symbol := "ETHBTC" |}) [] w1).
Proof.
  apply (subscribe_twice_same_channels Ticker "ETHBTC" "" ""
           (demo_client [CallOk true; CallOk true])
           [CallOk true; CallOk true] [CallOk true] []);
    [apply new_client_wf|reflexivity..].
Defined.

Lemma subscribe_frame_witness :
  exists chs w1 k,
    subscribe Trades "BTCUSD" "" (orderbook_client true) = (Ret (chs, None), w1) /\
    (forall f' s', ~ (f' ∈ topic_feeds Trades /\ s' = "BTCUSD") ->
       entry w1 f' s' = entry (orderbook_client true) f' s') /\
    (forall f' s' l', entry (orderbook_client true) f' s' = Some l' ->
       entry w1 f' s' = Some l') /\
    chans w1 = chans (orderbook_client true) ++ replicate k Open /\
    trace w1 =
      trace (orderbook_client true) ++
      EvCall "subscribeTrades" (PSub {| sub_Symbol := "BTCUSD" |})
        :: (EvMake <$> seq 3 k) /\
    (forall f, f ∈ topic_feeds Trades ->
       entry (orderbook_client true) f "BTCUSD" = None ->
       exists l, entry w1 f "BTCUSD" = Some l /\ 3 <= l).
Proof.
  apply (subscribe_frame Trades "BTCUSD" "" (orderbook_client true)
           [CallOk true] []);
    [apply orderbook_client_wf|reflexivity..].
Defined.

Lemma unsubscribe_frame_witness :
  exists w' ls,
    unsubscribe Orderbook "ETHBTC" "" (orderbook_client true) = (Ret None, w') /\
    (fun f => entry (orderbook_client true) f "ETHBTC") <$> topic_feeds Orderbook =
      Some <$> ls /\
    chans w' = mark_closed ls (chans (orderbook_client true)) /\
    trace w' =
      trace (orderbook_client true) ++
      EvCall "unsubscribeOrderbook" (PSub {| sub_Symbol := "ETHBTC" |})
        :: (EvClose <$> ls) /\
    (forall f' s' l, ~ (f' ∈ topic_feeds Orderbook /\ s' = "ETHBTC") ->
       entry (orderbook_client true) f' s' = Some l ->
       entry w' f' s' = Some l /\ chans w' !! l = Some Open).
Proof.
  apply (unsubscribe_frame Orderbook "ETHBTC" "" (orderbook_client true)
           [CallOk true] []);
    [apply orderbook_client_wf|reflexivity|reflexivity|].
  intros f [->|[->|[]%elem_of_nil]%elem_of_cons]%elem_of_cons; by eexists.
Defined.

Lemma reachable_paired_witness :
  is_Some (entry (orderbook_client true) FOrderbookUpd "ETHBTC") <->
  is_Some (entry (orderbook_client true) FOrderbookSnap "ETHBTC").
Proof.
  apply (reachable_paired (orderbook_client true) Orderbook);
    [apply orderbook_client_reachable|compute_done|compute_done].
Defined.

Lemma reachable_registry_invariant_witness :
  exists t h,
    conn (orderbook_client true) = Some t /\
    updates (orderbook_client true) = Some h /\
    (forall f s l, feed_get f h !! s = Some l ->
       chans (orderbook_client true) !! l = Some Open) /\
    (forall f1 s1 f2 s2 l,
       feed_get f1 h !! s1 = Some l -> feed_get f2 h !! s2 = Some l ->
       f1 = f2 /\ s1 = s2) /\
    chans (orderbook_client true) !! ErrorFeed h = Some Open /\
    (forall f s, feed_get f h !! s <> Some (ErrorFeed h)).
Proof.
  apply reachable_registry_invariant, orderbook_client_reachable.
Defined.

Lemma reachable_subscribe_returns_witness :
  exists chs e w',
    subscribe Trades "ETHBTC" "" (orderbook_client false) = (Ret (chs, e), w') /\
    length chs = 2 /\
    match e with
    | None => forall c, c ∈ chs -> exists l, c = Some l /\ chans w' !! l = Some Open
    | Some _ =>
        (forall c, c ∈ chs -> c = None) /\
        updates w' = updates (orderbook_client false) /\
        chans w' = chans (orderbook_client false)
    end.
Proof.
  apply (reachable_subscribe_returns Trades "ETHBTC" "" (orderbook_client false)),
    orderbook_client_reachable.
Defined.

Lemma reachable_unsubscribe_outcomes_witness :
  (exists e w',
     unsubscribe Ticker "ETHBTC" "" (orderbook_client true) = (Ret (Some e), w') /\
     updates w' = updates (orderbook_client true) /\
     chans w' = chans (orderbook_client true)) \/
  (exists w',
     unsubscribe Ticker "ETHBTC" "" (orderbook_client true) = (Ret None, w') /\
     (forall f, f ∈ topic_feeds Ticker ->
        is_Some (entry (orderbook_client true) f "ETHBTC")) /\
     (forall f, f ∈ topic_feeds Ticker -> entry w' f "ETHBTC" = None)) \/
  (exists w',
     unsubscribe Ticker "ETHBTC" "" (orderbook_client true) = (Panic close_nil, w') /\
     (forall f, f ∈ topic_feeds Ticker ->
        entry (orderbook_client true) f "ETHBTC" = None) /\
     updates w' = updates (orderbook_client true) /\
     chans w' = chans (orderbook_client true)).
Proof.
  apply (reachable_unsubscribe_outcomes Ticker "ETHBTC" "" (orderbook_client true)),
    orderbook_client_reachable.
Defined.

Lemma Close_twice_safe_witness :
  exists w1 w2,
    Close (orderbook_client true) = (Ret tt, w1) /\
    Close w1 = (Ret tt, w2) /\
    trace w2 = trace w1 ++ [EvConnClose; EvClose 3; EvMake 4] /\
    (forall f s, entry w2 f s = None).
Proof.
  apply (Close_twice_safe (orderbook_client true)), orderbook_client_wf.
Defined.

Lemma Handle_after_Close_witness :
  exists w1,
    Close (orderbook_client true) = (Ret tt, w1) /\
    chans w1 !! 3 = Some Open /\
    Handle {| Method := "snapshotOrderbook"; Params := Some "ETHBTC" |} w1 =
      (Blocked, w1).
Proof.
  destruct (orderbook_client_wf true) as [_ (h & Hu & _)].
  destruct (Handle_after_Close (orderbook_client true) h
              {| Method := "snapshotOrderbook"; Params := Some "ETHBTC" |}
              "ETHBTC" (orderbook_client_wf true) Hu eq_refl)
    as (w1 & Hrun & _ & _ & Hopen & Hblocks).
  exists w1. split; [exact Hrun|]. split; [exact Hopen|exact Hblocks].
Defined.

Lemma resubscribe_gets_new_channels_witness :
  exists chs1 w1 w2 chs2 w3,
    subscribe Trades "ETHBTC" ""
      (demo_client [CallOk true; CallOk true; CallOk true]) =
      (Ret (chs1, None), w1) /\
    unsubscribe Trades "ETHBTC" "" w1 = (Ret None, w2) /\
    subscribe Trades "ETHBTC" "" w2 = (Ret (chs2, None), w3) /\
    (forall c, c ∈ chs1 -> exists l, c = Some l /\ chans w3 !! l = Some Closed) /\
    (forall c, c ∈ chs2 ->
       exists l, c = Some l /\ chans w3 !! l = Some Open /\ c ∉ chs1).
Proof.
  apply (resubscribe_gets_new_channels Trades "ETHBTC" ""
           (demo_client [CallOk true; CallOk true; CallOk true])
           [CallOk true; CallOk true; CallOk true] [CallOk true; CallOk true]
           [CallOk true] []);
    [apply new_client_wf|reflexivity..].
Defined.

Lemma reachable_no_orphan_witness :
  go_recv (chans (UnsubscribeOrderbook "ETHBTC" (orderbook_client true)).2) 1 =
    RecvClosed \/
  exists h,
    updates (UnsubscribeOrderbook "ETHBTC" (orderbook_client true)).2 = Some h /\
    (1 = ErrorFeed h \/ exists f s, feed_get f h !! s = Some 1).
Proof.
  apply (reachable_no_orphan
           (UnsubscribeOrderbook "ETHBTC" (orderbook_client true)).2 1).
  - eapply reachable_step; [apply orderbook_client_reachable|].
    apply step_UnsubscribeOrderbook.
  - vm_compute. lia.
Defined.
